(** * posflag: the pflag command-line provider of koanf

    A shallow embedding of [providers/posflag/posflag.go] and the
    properties of its [Read], [ReadBytes] and [Watch] methods.

    Go strings are [string]; a Go map [map[string]interface{}] is a
    [gmap string iface]; Go's sized signed integers are integers with a
    range ([sint w]); the [(value, error)] pairs of Go are pairs whose
    second component is an [option error] ([None] is [nil]).  The receiver
    [*Posflag] is threaded through [Read] as explicit state. *)

From stdpp Require Import gmap strings list fin_maps.
From Stdlib Require Import ZArith Lia.

Local Open Scope string_scope.
Local Open Scope list_scope.
Local Open Scope Z_scope.

(** * The program *)

(** ** Go values *)

(** [in_rangeb w z]: [z] fits a signed integer of [w] bits. *)
Definition in_rangeb (w z : Z) : bool :=
  (- 2 ^ (w - 1) <=? z) && (z <? 2 ^ (w - 1)).

(** A Go signed integer of [w] bits ([int8], [int16], [int32], [int64];
    [int] is taken at its 64-bit size). *)
Record sint (w : Z) : Type := SInt {
  sval : Z;
  sval_ok : Is_true (in_rangeb w sval)
}.
Arguments SInt w sval sval_ok : clear implicits.
Arguments sval {w} _.
Arguments sval_ok {w} _.

(** Two's-complement truncation to [w] bits, read back as a signed number. *)
Definition wrap (w z : Z) : Z :=
  (z + 2 ^ (w - 1)) mod 2 ^ w - 2 ^ (w - 1).

(** The Go conversion [int64(i)] of a signed integer [i] of any width:
    the value of [i], truncated to 64 bits. *)
Definition int64 {w : Z} (i : sint w) : Z := wrap 64 (sval i).

(** The zero value of a signed integer type. *)
Definition sint_zero (w : Z) (Hw : Is_true (in_rangeb w 0)) : sint w :=
  SInt w 0 Hw.

Definition zero8 : sint 8 := sint_zero 8 I.
Definition zero16 : sint 16 := sint_zero 16 I.
Definition zero32 : sint 32 := sint_zero 32 I.
Definition zero64 : sint 64 := sint_zero 64 I.

(** Floating-point numbers are only moved, never computed with: they are
    kept as their IEEE bit patterns, in two distinct types. *)
Record float32 : Type := F32 { bits32 : Z }.
Record float64 : Type := F64 { bits64 : Z }.

(** A Go [error] made by [errors.New]; [nil] is [None] of [option error]. *)
Inductive error : Type :=
| errors_New (msg : string).

(** The values an [interface{}] holds in this package: what [Read] stores
    for the recognized flag types, what a value callback may hand back,
    and nested maps. *)
#[warnings="-register-all"]
Inductive iface : Type :=
| VNil
| VInt64 (z : Z)
| VFloat32 (x : float32)
| VFloat64 (x : float64)
| VBool (b : bool)
| VString (s : string)
| VStringSlice (l : list string)
| VIntSlice (l : list Z)
| VMap (m : gmap string iface).

(** ** The pflag collaborator *)

(** [pflag.Value]: the two methods of the interface that [Read] calls. *)
Record pflag_Value : Type := {
  Type_ : string;     (* Value.Type() *)
  String_ : string    (* Value.String() *)
}.

(** [pflag.Flag]: the fields that [Read] reads. *)
Record Flag : Type := {
  Name : string;
  Changed : bool;
  Value : pflag_Value
}.

(** The outcome of a typed lookup inside the flag set. *)
Inductive result (T : Type) : Type :=
| Ok (v : T)
| Err (e : error).
Arguments Ok {T} v.
Arguments Err {T} e.

(** The value of a successful lookup, seen through [g]. *)
Definition result_map {A B : Type} (g : A -> B) (r : result A) : result B :=
  match r with
  | Ok v => Ok (g v)
  | Err e => Err e
  end.

(** The lookup of a flag that the flag set does not have under that
    type. *)
Definition undefined {T : Type} (name : string) : result T :=
  Err (errors_New ("flag accessed but not defined: " +:+ name)).

(** [pflag.FlagSet]: the flags in the order [VisitAll] visits them, and
    the typed lookups behind the [GetXxx] methods. *)
Record FlagSet : Type := {
  formal : list Flag;
  lookupInt : string -> result (sint 64);
  lookupInt8 : string -> result (sint 8);
  lookupInt16 : string -> result (sint 16);
  lookupInt32 : string -> result (sint 32);
  lookupInt64 : string -> result (sint 64);
  lookupFloat32 : string -> result float32;
  lookupFloat64 : string -> result float64;
  lookupBool : string -> result bool;
  lookupStringSlice : string -> result (list string);
  lookupIntSlice : string -> result (list Z)
}.

(** A [GetXxx] method returns [(value, nil)], or the zero value of the
    type and the error. *)
Definition getter {T : Type} (zero : T) (r : result T) : T * option error :=
  match r with
  | Ok v => (v, None)
  | Err e => (zero, Some e)
  end.

Definition GetInt (fs : FlagSet) (name : string) := getter zero64 (lookupInt fs name).
Definition GetInt8 (fs : FlagSet) (name : string) := getter zero8 (lookupInt8 fs name).
Definition GetInt16 (fs : FlagSet) (name : string) := getter zero16 (lookupInt16 fs name).
Definition GetInt32 (fs : FlagSet) (name : string) := getter zero32 (lookupInt32 fs name).
Definition GetInt64 (fs : FlagSet) (name : string) := getter zero64 (lookupInt64 fs name).
Definition GetFloat32 (fs : FlagSet) (name : string) := getter (F32 0) (lookupFloat32 fs name).
Definition GetFloat64 (fs : FlagSet) (name : string) := getter (F64 0) (lookupFloat64 fs name).
Definition GetBool (fs : FlagSet) (name : string) := getter false (lookupBool fs name).
Definition GetStringSlice (fs : FlagSet) (name : string) :=
  getter (@nil string) (lookupStringSlice fs name).
Definition GetIntSlice (fs : FlagSet) (name : string) :=
  getter (@nil Z) (lookupIntSlice fs name).

(** ** The koanf collaborator *)

(** [koanf.Koanf], of which [Read] calls [Exists] only. *)
Record Koanf : Type := {
  Exists : string -> bool
}.

(** ** The provider *)

(** [type Posflag struct]; a [nil] pointer or function field is [None]. *)
Record Posflag : Type := {
  delim : string;
  flagset : FlagSet;
  ko : option Koanf;
  valueCallback : option (string -> string -> string * iface);
  keyNameCallback : option (Flag -> string)
}.

(** [type Option func(p *Posflag)] *)
Definition Option : Type := Posflag -> Posflag.

(** [func Provider(f, delim, ko)] *)
Definition Provider (f : FlagSet) (delim : string) (ko : option Koanf) : Posflag :=
  {| delim := delim; flagset := f; ko := ko;
     valueCallback := None; keyNameCallback := None |}.

(** [func ProviderWithValue(f, delim, ko, cb)] *)
Definition ProviderWithValue (f : FlagSet) (delim : string) (ko : option Koanf)
    (cb : option (string -> string -> string * iface)) : Posflag :=
  {| delim := delim; flagset := f; ko := ko;
     valueCallback := cb; keyNameCallback := None |}.

(** [func ProviderWithOptions(f, delim, options...)] *)
Definition ProviderWithOptions (f : FlagSet) (delim : string)
    (options : list Option) : Posflag :=
  foldl (fun p opt => opt p)
        {| delim := delim; flagset := f; ko := None;
           valueCallback := None; keyNameCallback := None |}
        options.

(** [func ParentKoanf(ko) Option] *)
Definition ParentKoanf (k : option Koanf) : Option := fun p =>
  {| delim := delim p; flagset := flagset p; ko := k;
     valueCallback := valueCallback p; keyNameCallback := keyNameCallback p |}.

(** [func ValueCallback(cb) Option] *)
Definition ValueCallback (cb : option (string -> string -> string * iface)) : Option :=
  fun p =>
  {| delim := delim p; flagset := flagset p; ko := ko p;
     valueCallback := cb; keyNameCallback := keyNameCallback p |}.

(** [func RenameCallback(cb) Option] *)
Definition RenameCallback (cb : option (Flag -> string)) : Option := fun p =>
  {| delim := delim p; flagset := flagset p; ko := ko p;
     valueCallback := valueCallback p; keyNameCallback := cb |}.

(** ** Delimited keys *)

(** Go's [strings.Split(s, sep)] for a non-empty [sep]: the pieces of [s]
    between the occurrences of [sep], found from left to right.  [skip]
    counts the characters of an occurrence still to be passed over. *)
Fixpoint genSplit (sep : string) (skip : nat) (s : string) : list string :=
  match s with
  | EmptyString => [EmptyString]
  | String c s' =>
      match skip with
      | S n => genSplit sep n s'
      | O =>
          if String.prefix sep s
          then EmptyString :: genSplit sep (Nat.pred (String.length sep)) s'
          else match genSplit sep O s' with
               | tok :: rest => String c tok :: rest
               | [] => [String c EmptyString]
               end
      end
  end.

(** [lo <= c <= hi], on the value of the byte [c]. *)
Definition between (lo hi : N) (c : Ascii.ascii) : bool :=
  ((lo <=? Ascii.N_of_ascii c) && (Ascii.N_of_ascii c <=? hi))%N.

(** The table [first] of Go's package [utf8] together with its accept
    ranges: for the first byte of a sequence of several bytes, the length
    of the sequence and the range of its second byte; [None] for an ASCII
    byte and for a byte that starts no sequence. *)
Definition first (s0 : Ascii.ascii) : option (nat * N * N) :=
  if between 0xC2 0xDF s0 then Some (2%nat, 0x80, 0xBF)%N
  else if between 0xE0 0xE0 s0 then Some (3%nat, 0xA0, 0xBF)%N
  else if between 0xE1 0xEC s0 then Some (3%nat, 0x80, 0xBF)%N
  else if between 0xED 0xED s0 then Some (3%nat, 0x80, 0x9F)%N
  else if between 0xEE 0xEF s0 then Some (3%nat, 0x80, 0xBF)%N
  else if between 0xF0 0xF0 s0 then Some (4%nat, 0x90, 0xBF)%N
  else if between 0xF1 0xF3 s0 then Some (4%nat, 0x80, 0xBF)%N
  else if between 0xF4 0xF4 s0 then Some (4%nat, 0x80, 0x8F)%N
  else None.

(** The width that Go's [utf8.DecodeRuneInString(s)] returns: the number
    of bytes of the UTF-8 sequence that [s] starts with, 1 for a byte
    that starts no valid sequence, 0 for the empty string. *)
Definition rune_width (s : string) : nat :=
  match s with
  | EmptyString => 0
  | String s0 rest =>
      match first s0 with
      | None => 1
      | Some (sz, lo, hi) =>
          if (String.length s <? sz)%nat then 1
          else
            match rest with
            | EmptyString => 1
            | String s1 rest1 =>
                if negb (between lo hi s1) then 1
                else if (sz <=? 2)%nat then 2
                else
                  match rest1 with
                  | EmptyString => 1
                  | String s2 rest2 =>
                      if negb (between 0x80 0xBF s2) then 1
                      else if (sz <=? 3)%nat then 3
                      else
                        match rest2 with
                        | EmptyString => 1
                        | String s3 _ =>
                            if negb (between 0x80 0xBF s3) then 1 else 4
                        end
                  end
            end
      end
  end.

(** [s[:n]] *)
Fixpoint string_take (n : nat) (s : string) : string :=
  match n, s with
  | S n', String c s' => String c (string_take n' s')
  | _, _ => EmptyString
  end.

(** [s[n:]] *)
Fixpoint string_drop (n : nat) (s : string) : string :=
  match n, s with
  | O, _ => s
  | S n', String _ s' => string_drop n' s'
  | S _, EmptyString => EmptyString
  end.

(** The loop of Go's [explode]: one piece per UTF-8 sequence, a byte that
    starts no valid sequence being a piece of its own.  A turn of the
    loop takes at least one byte, so [fuel] turns are enough for a string
    of [fuel] bytes. *)
Fixpoint explode_loop (fuel : nat) (s : string) : list string :=
  match fuel with
  | O => []
  | S fuel' =>
      match s with
      | EmptyString => []
      | _ =>
          let size := rune_width s in
          string_take size s :: explode_loop fuel' (string_drop size s)
      end
  end.

(** Go's [strings.Split(s, "")]: one piece per UTF-8 sequence, none for
    [""]. *)
Definition explode (s : string) : list string :=
  explode_loop (String.length s) s.

(** [strings.Split(s, sep)] *)
Definition Split (s sep : string) : list string :=
  match sep with
  | EmptyString => explode s
  | _ => genSplit sep O s
  end.

(** [strings.Join(parts, sep)] *)
Fixpoint Join (parts : list string) (sep : string) : string :=
  match parts with
  | [] => EmptyString
  | [a] => a
  | a :: rest => a +:+ sep +:+ Join rest sep
  end.

(** Modelled from the spec: the nesting levels that a flat key stands for
    in the absent package [maps], "keys containing the configured
    delimiter are expanded into nested sub-mappings".  A key that splits
    into no piece at all (the empty key under the empty delimiter) is
    kept whole, as one level. *)
Definition key_path (k d : string) : list string :=
  match Split k d with
  | [] => [k]
  | parts => parts
  end.

(** ** Nesting and flattening (package [maps]) *)

(** Modelled from the spec: [maps.Unflatten] lives in package [maps] of
    this repository, which is not among the sources.  One entry is put at
    its path: "a key a.b.c with delimiter . becomes nested levels
    a -> b -> c -> value"; on the way down an existing sub-mapping is
    merged into and anything else is overwritten. *)
Fixpoint nest (path : list string) (v : iface) (t : gmap string iface)
    : gmap string iface :=
  match path with
  | [] => t
  | [k] => <[k := v]> t
  | k :: rest =>
      let sub := match t !! k with
                 | Some (VMap m) => m
                 | _ => ∅
                 end in
      <[k := VMap (nest rest v sub)]> t
  end.

(** Modelled from the spec: [maps.Unflatten(m, delim)] (absent package
    [maps]), for the entries of the flat map taken in the order [l]:
    "expand every key in the flat accumulator by the configured delimiter
    into a nested tree structure". *)
Definition unflatten_entries (l : list (string * iface)) (d : string)
    : gmap string iface :=
  foldl (fun out kv => nest (key_path (fst kv) d) (snd kv) out) ∅ l.

(** Modelled from the spec: [maps.Unflatten(m, delim)] (absent package
    [maps]), the entries taken in the order the map lists them. *)
Definition Unflatten (m : gmap string iface) (d : string) : gmap string iface :=
  unflatten_entries (map_to_list m) d.

(** Modelled from the spec: what the flattening of the absent package
    [maps] keeps whole, that is any value but a mapping with entries to
    descend into. *)
Definition is_leaf (v : iface) : bool :=
  match v with
  | VMap m => bool_decide (m = ∅)
  | _ => true
  end.

(** Modelled from the spec: the flattening of package [maps] (absent),
    which the spec names as the inverse of nesting ("flattening the tree
    using the same delimiter").  The value [v] sits at the levels [kp];
    a non-empty mapping is descended into, any other value is written to
    [out] under the levels joined by the delimiter. *)
Fixpoint flatten (v : iface) (kp : list string) (d : string)
    (out : gmap string iface) : gmap string iface :=
  match v with
  | VMap m =>
      if bool_decide (m = ∅) then <[Join kp d := v]> out
      else map_fold (fun k sub acc => flatten sub (kp ++ [k]) d acc) out m
  | _ => <[Join kp d := v]> out
  end.

(** Modelled from the spec: [Flatten] of the absent package [maps] on a
    whole tree. *)
Definition Flatten (t : gmap string iface) (d : string) : gmap string iface :=
  map_fold (fun k sub acc => flatten sub [k] d acc) ∅ t.

(** ** State passing *)

(** A method runs on a state [S] (the receiver, and for [Watch] also the
    world its callback acts on) and returns a result and the state it
    leaves behind. *)
Definition State (S A : Type) : Type := S -> A * S.

#[global] Instance State_ret {S : Type} : MRet (State S) :=
  fun A a s => (a, s).

#[global] Instance State_bind {S : Type} : MBind (State S) :=
  fun A B k m s => let '(a, s') := m s in k a s'.

(** Read one field of the state. *)
Definition gets {S A : Type} (field : S -> A) : State S A :=
  fun s => (field s, s).

(** [FlagSet.VisitAll(fn)]: [fn] is run on every flag, in order; the map
    that the closure [fn] captures and updates is passed along. *)
Fixpoint VisitAll {S A : Type} (flags : list Flag) (fn : Flag -> A -> State S A)
    (a : A) : State S A :=
  match flags with
  | [] => mret a
  | f :: flags' => a' ← fn f a; VisitAll flags' fn a'
  end.

(** ** The methods of the provider *)

(** Lines 88-128 of the closure in [Read]: the switch on the flag's type,
    and the assignment to the map.  A [return] of the closure gives the
    map back as it is. *)
Definition visit_value (f : Flag) (keyName : string) (mp : gmap string iface)
    : State Posflag (gmap string iface) :=
  fs ← gets flagset;
  let assign (v : iface) : State Posflag (gmap string iface) :=
    mret (<[keyName := v]> mp) in
  let ty := Type_ (Value f) in
  if String.eqb ty "int" then
    let '(i, _) := GetInt fs (Name f) in assign (VInt64 (int64 i))
  else if String.eqb ty "int8" then
    let '(i, _) := GetInt8 fs (Name f) in assign (VInt64 (int64 i))
  else if String.eqb ty "int16" then
    let '(i, _) := GetInt16 fs (Name f) in assign (VInt64 (int64 i))
  else if String.eqb ty "int32" then
    let '(i, _) := GetInt32 fs (Name f) in assign (VInt64 (int64 i))
  else if String.eqb ty "int64" then
    let '(i, _) := GetInt64 fs (Name f) in assign (VInt64 (int64 i))
  else if String.eqb ty "float32" then
    let '(v, _) := GetFloat32 fs (Name f) in assign (VFloat32 v)
  else if String.eqb ty "float" then
    let '(v, _) := GetFloat64 fs (Name f) in assign (VFloat64 v)
  else if String.eqb ty "bool" then
    let '(v, _) := GetBool fs (Name f) in assign (VBool v)
  else if String.eqb ty "stringSlice" then
    let '(v, _) := GetStringSlice fs (Name f) in assign (VStringSlice v)
  else if String.eqb ty "intSlice" then
    let '(v, _) := GetIntSlice fs (Name f) in assign (VIntSlice v)
  else
    cb ← gets valueCallback;
    match cb with
    | Some callback =>
        let '(key, value) := callback keyName (String_ (Value f)) in
        if String.eqb key "" then mret mp
        else mret (<[key := value]> mp)
    | None => assign (VString (String_ (Value f)))
    end.

(** The closure that [Read] hands to [VisitAll] (lines 71-129). *)
Definition visit (f : Flag) (mp : gmap string iface)
    : State Posflag (gmap string iface) :=
  rename ← gets keyNameCallback;
  let keyName := match rename with
                 | Some callback => callback f
                 | None => Name f
                 end in
  parent ← gets ko;
  if negb (Changed f) then
    match parent with
    | Some k =>
        if Exists k keyName then mret mp
        else visit_value f keyName mp
    | None => mret mp
    end
  else visit_value f keyName mp.

(** Lines 70-129 of [Read]: the flat map [mp] that [VisitAll] fills. *)
Definition Read_flat : State Posflag (gmap string iface) :=
  fs ← gets flagset;
  VisitAll (formal fs) visit ∅.

(** [func (p *Posflag) Read() (map[string]interface{}, error)] *)
Definition Read : State Posflag (gmap string iface * option error) :=
  mp ← Read_flat;
  d ← gets delim;
  mret (Unflatten mp d, None).

(** [func (p *Posflag) ReadBytes() ([]byte, error)] *)
Definition ReadBytes : State Posflag (option (list Byte.byte) * option error) :=
  mret (None, Some (errors_New "pflag provider does not support this method")).

(** [func (p *Posflag) Watch(cb func(event interface{}, err error)) error].
    The callback acts on a world [W] of its own, which is part of the
    state together with the receiver. *)
Definition Watch {W : Type} (cb : iface -> option error -> W -> W)
    : State (Posflag * W) (option error) :=
  mret (Some (errors_New "posflag provider does not support this method")).

(** ** Vocabulary of the properties *)

(** The output key of a flag (lines 72-75): the rename callback's answer
    when there is one, the flag's name otherwise. *)
Definition key_name (p : Posflag) (f : Flag) : string :=
  match keyNameCallback p with
  | Some callback => callback f
  | None => Name f
  end.

(** The inclusion decision: a changed flag, or a default that a parent
    koanf is there to vouch is not set yet. *)
Definition included (p : Posflag) (f : Flag) : bool :=
  Changed f ||
  match ko p with
  | Some k => negb (Exists k (key_name p f))
  | None => false
  end.

(** The type tags that the switch of [Read] has a case for. *)
Definition recognized : list string :=
  ["int"; "int8"; "int16"; "int32"; "int64"; "float32"; "float"; "bool";
   "stringSlice"; "intSlice"].

(** The tags of the signed-integer flags, of every width. *)
Definition signed_tags : list string := ["int"; "int8"; "int16"; "int32"; "int64"].


(** What the default case of the switch does (lines 115-126). *)
Definition default_case (p : Posflag) (f : Flag) (keyName : string)
    (mp : gmap string iface) : gmap string iface :=
  match valueCallback p with
  | Some callback =>
      let kv := callback keyName (String_ (Value f)) in
      if decide (fst kv = "") then mp else <[fst kv := snd kv]> mp
  | None => <[keyName := VString (String_ (Value f))]> mp
  end.

(** The number held by a flag of a signed-integer type, as the typed
    lookup of its width finds it. *)
Definition int_value (fs : FlagSet) (f : Flag) : result Z :=
  let ty := Type_ (Value f) in
  if decide (ty = "int") then result_map sval (lookupInt fs (Name f))
  else if decide (ty = "int8") then result_map sval (lookupInt8 fs (Name f))
  else if decide (ty = "int16") then result_map sval (lookupInt16 fs (Name f))
  else if decide (ty = "int32") then result_map sval (lookupInt32 fs (Name f))
  else if decide (ty = "int64") then result_map sval (lookupInt64 fs (Name f))
  else undefined (Name f).

(** The value of a flag of a recognized type, as the typed lookup for
    its tag finds it. *)
Definition typed_value (fs : FlagSet) (f : Flag) : result iface :=
  let ty := Type_ (Value f) in
  if decide (ty ∈ signed_tags) then result_map VInt64 (int_value fs f)
  else if decide (ty = "float32") then result_map VFloat32 (lookupFloat32 fs (Name f))
  else if decide (ty = "float") then result_map VFloat64 (lookupFloat64 fs (Name f))
  else if decide (ty = "bool") then result_map VBool (lookupBool fs (Name f))
  else if decide (ty = "stringSlice")
       then result_map VStringSlice (lookupStringSlice fs (Name f))
  else if decide (ty = "intSlice")
       then result_map VIntSlice (lookupIntSlice fs (Name f))
  else undefined (Name f).

(** The zero value of the Go type behind a recognized tag. *)
Definition zero_value (ty : string) : iface :=
  if decide (ty ∈ signed_tags) then VInt64 0
  else if decide (ty = "float32") then VFloat32 (F32 0)
  else if decide (ty = "float") then VFloat64 (F64 0)
  else if decide (ty = "bool") then VBool false
  else if decide (ty = "stringSlice") then VStringSlice []
  else if decide (ty = "intSlice") then VIntSlice []
  else VNil.

(** The value that flattening finds at the levels [path] below [v]:
    a leaf reached by descending through mappings only. *)
Fixpoint leaf_in (path : list string) (v : iface) : option iface :=
  match path with
  | [] => if is_leaf v then Some v else None
  | k :: path' =>
      match v with
      | VMap m =>
          match m !! k with
          | Some sub => leaf_in path' sub
          | None => None
          end
      | _ => None
      end
  end.

(** The flat map holds no mapping to descend into. *)
Definition flat (m : gmap string iface) : Prop :=
  map_Forall (fun _ v => Is_true (is_leaf v)) m.

(** No delimiter collision: the levels of one key never run along the
    levels of another key. *)
Definition NoCollision (m : gmap string iface) (d : string) : Prop :=
  map_Forall (fun k1 _ =>
    map_Forall (fun k2 _ =>
      key_path k1 d `prefix_of` key_path k2 d -> k1 = k2) m) m.

(** Nesting depth of a value. *)
Fixpoint depth (v : iface) : nat :=
  match v with
  | VMap m => S (map_fold (fun _ sub acc => Nat.max (depth sub) acc) O m)
  | _ => O
  end.

(** ** Sample registries *)

(** A flag by name, type tag, string rendering and changed marker. *)
Definition demo_flag (name ty val : string) (changed : bool) : Flag :=
  {| Name := name; Changed := changed;
     Value := {| Type_ := ty; String_ := val |} |}.

(** A small registry: [host] (string, default), [level] (int8, set on the
    command line to 127), [port] (int, set to 8080), [ratio] (64-bit
    float, whose [Type()] is "float64" in pflag, set to 1.5), [tags]
    (string slice, default). *)
Definition demo_flags : FlagSet :=
  {| formal := [ demo_flag "host" "string" "localhost" false;
                 demo_flag "level" "int8" "127" true;
                 demo_flag "port" "int" "8080" true;
                 demo_flag "ratio" "float64" "1.5" true;
                 demo_flag "tags" "stringSlice" "[a,b]" false ];
     lookupInt := fun n =>
       if String.eqb n "port" then Ok (SInt 64 8080 I) else undefined n;
     lookupInt8 := fun n =>
       if String.eqb n "level" then Ok (SInt 8 127 I) else undefined n;
     lookupInt16 := undefined;
     lookupInt32 := undefined;
     lookupInt64 := undefined;
     lookupFloat32 := undefined;
     lookupFloat64 := fun n =>
       if String.eqb n "ratio" then Ok (F64 4609434218613702656) else undefined n;
     lookupBool := undefined;
     lookupStringSlice := fun n =>
       if String.eqb n "tags" then Ok ["a"; "b"] else undefined n;
     lookupIntSlice := undefined |}.

(** The registry of the scenario: [host] (string, default), [port] (int,
    set to 8080), [tags] (string slice, default). *)
Definition scenario_flags : FlagSet :=
  {| formal := [ demo_flag "host" "string" "localhost" false;
                 demo_flag "port" "int" "8080" true;
                 demo_flag "tags" "stringSlice" "[a,b]" false ];
     lookupInt := fun n =>
       if String.eqb n "port" then Ok (SInt 64 8080 I) else undefined n;
     lookupInt8 := undefined;
     lookupInt16 := undefined;
     lookupInt32 := undefined;
     lookupInt64 := undefined;
     lookupFloat32 := undefined;
     lookupFloat64 := undefined;
     lookupBool := undefined;
     lookupStringSlice := fun n =>
       if String.eqb n "tags" then Ok ["a"; "b"] else undefined n;
     lookupIntSlice := undefined |}.

(** A parent koanf that has the key [host] and no other. *)
Definition demo_parent : Koanf :=
  {| Exists := fun key => String.eqb key "host" |}.

(** A value callback that drops [host] and files the rest under [cli.]. *)
Definition demo_drop : string -> string -> string * iface :=
  fun key value =>
    if String.eqb key "host" then ("", VNil) else ("cli." +:+ key, VString value).

(** A rename callback that files every flag under [server.]. *)
Definition demo_rename : Flag -> string :=
  fun f => "server." +:+ Name f.



(** A flat map without collisions. *)
Definition demo_flat : gmap string iface :=
  {[ "parent.child.key" := VInt64 1; "parent.child.name" := VString "x";
     "parent.list" := VStringSlice ["a"; "b"]; "top" := VBool true ]}.

(** ** Vocabulary of the further properties *)

(** What the closure of [Read] writes for one flag, on a map with nothing
    in it yet. *)
Definition contribution (p : Posflag) (f : Flag) : gmap string iface :=
  fst (visit f ∅ p).

(** The keys that the flags of [flags] write, flag after flag. *)
Definition written_keys (p : Posflag) (flags : list Flag) : list string :=
  flags ≫= fun f => (map_to_list (contribution p f)).*1.

(** What [Read] stores for a flag when no value callback is configured:
    the typed value of a recognized type, or the zero value when its
    getter fails, and the string rendering of any other type. *)
Definition stored_value (p : Posflag) (f : Flag) : iface :=
  if decide (Type_ (Value f) ∈ recognized) then
    match typed_value (flagset p) f with
    | Ok v => v
    | Err _ => zero_value (Type_ (Value f))
    end
  else VString (String_ (Value f)).

(** The three options of the package, by name. *)
Inductive setter : Type :=
| SetParentKoanf (k : option Koanf)
| SetValueCallback (cb : option (string -> string -> string * iface))
| SetRenameCallback (cb : option (Flag -> string)).

(** The [Option] that a named option stands for. *)
Definition option_of (s : setter) : Option :=
  match s with
  | SetParentKoanf k => ParentKoanf k
  | SetValueCallback cb => ValueCallback cb
  | SetRenameCallback cb => RenameCallback cb
  end.

(** The argument of the last [ParentKoanf] of a list of options, [nil]
    when there is none; likewise for the two callbacks. *)
Definition last_parent (l : list setter) : option Koanf :=
  foldl (fun acc s => match s with SetParentKoanf k => k | _ => acc end) None l.

Definition last_value (l : list setter)
    : option (string -> string -> string * iface) :=
  foldl (fun acc s => match s with SetValueCallback cb => cb | _ => acc end) None l.

Definition last_rename (l : list setter) : option (Flag -> string) :=
  foldl (fun acc s => match s with SetRenameCallback cb => cb | _ => acc end) None l.

(** A registry in which nothing was set on the command line. *)
Definition unset_flags : FlagSet :=
  {| formal := [ demo_flag "host" "string" "localhost" false;
                 demo_flag "tags" "stringSlice" "[a,b]" false ];
     lookupInt := undefined;
     lookupInt8 := undefined;
     lookupInt16 := undefined;
     lookupInt32 := undefined;
     lookupInt64 := undefined;
     lookupFloat32 := undefined;
     lookupFloat64 := undefined;
     lookupBool := undefined;
     lookupStringSlice := fun n =>
       if String.eqb n "tags" then Ok ["a"; "b"] else undefined n;
     lookupIntSlice := undefined |}.

(** ** Run-time failure *)

(** How a Go call ends: it returns, or the run stops in a panic. *)
Inductive outcome (A : Type) : Type :=
| Returns (a : A)
| Panics (msg : string).
Arguments Returns {A} a.
Arguments Panics {A} msg.

(** Modelled from the spec: [maps.Unflatten] of the absent package [maps]
    as it runs.  The spec has every key expanded into its levels, with
    the value at the last level; a key that [strings.Split] cuts into no
    piece at all has no last level, and there the Go run time stops in a
    panic (the slice [keys[:len(keys)-1]] of an empty [keys]).
    Everywhere else the call returns the tree of [Unflatten]. *)
Definition Unflatten_go (m : gmap string iface) (d : string)
    : outcome (gmap string iface) :=
  if bool_decide (map_Forall (fun k _ => Split k d <> []) m)
  then Returns (Unflatten m d)
  else Panics "runtime error: slice bounds out of range [:-1]".

(** [Read] as it runs: lines 70-129 build the flat map, and line 130
    returns the tree and the [nil] error once the call of
    [maps.Unflatten] has returned; nothing in [Read] recovers from a
    panic. *)
Definition Read_go : State Posflag (outcome (gmap string iface * option error)) :=
  mp ← Read_flat;
  d ← gets delim;
  match Unflatten_go mp d with
  | Returns tree => mret (Returns (tree, None))
  | Panics msg => mret (Panics msg)
  end.



(** ** Proof steps *)

(** Unfold the state-passing operations. *)
Ltac run_state :=
  unfold mbind, mret, State_bind, State_ret, gets in *; simpl in *.

(** The cases of the switch that call a typed getter. *)
Ltac switch_case H :=
  unfold visit_value; run_state; rewrite H; simpl;
  match goal with
  | |- context [let '(_, _) := ?x in _] => destruct x
  end; reflexivity.

(** * Properties *)

(** ** Tests *)

Example Split_dots : Split "parent.child.key" "." = ["parent"; "child"; "key"].
Proof. reflexivity. Qed.

Example Split_empty_piece : Split "a..b" "." = ["a"; ""; "b"].
Proof. reflexivity. Qed.

Example Split_overlap : Split "xaaay" "aa" = ["x"; "ay"].
Proof. reflexivity. Qed.

Example Split_no_sep : Split "" "." = [""].
Proof. reflexivity. Qed.

Example Split_chars : Split "abc" "" = ["a"; "b"; "c"].
Proof. reflexivity. Qed.

(** With the empty delimiter a character of several bytes is one piece. *)
Example Split_utf8 :
  Split "aéb€" "" = ["a"; "é"; "b"; "€"] /\
  map String.length (Split "aéb€" "") = [1; 2; 1; 3]%nat.
Proof. split; reflexivity. Qed.

Example Unflatten_doc :
  Unflatten {[ "parent.child.key" := VInt64 1 ]} "."
  = {[ "parent" := VMap {[ "child" := VMap {[ "key" := VInt64 1 ]} ]} ]}.
Proof. vm_compute. reflexivity. Qed.

Example Flatten_doc :
  Flatten {[ "parent" := VMap {[ "child" := VMap {[ "key" := VInt64 1 ]} ]} ]} "."
  = {[ "parent.child.key" := VInt64 1 ]}.
Proof. vm_compute. reflexivity. Qed.

Example Read_demo :
  fst (Read (Provider demo_flags "." None))
  = ({[ "level" := VInt64 127; "port" := VInt64 8080;
        "ratio" := VString "1.5" ]}, None).
Proof. vm_compute. reflexivity. Qed.

(** Unchanged defaults are left out when there is no parent koanf. *)
Example Read_scenario :
  fst (Read (Provider scenario_flags "." None))
  = ({[ "port" := VInt64 8080 ]}, None).
Proof. vm_compute. reflexivity. Qed.

(** With a parent koanf that has [host] already, the default of [tags] is
    taken and the default of [host] is not. *)
Example Read_scenario_parent :
  fst (Read (Provider scenario_flags "." (Some demo_parent)))
  = ({[ "port" := VInt64 8080; "tags" := VStringSlice ["a"; "b"] ]}, None).
Proof. vm_compute. reflexivity. Qed.

Example int64_of_int8_127 : int64 (SInt 8 127 I) = 127.
Proof. reflexivity. Qed.

Example int64_of_int8_min : int64 (SInt 8 (-128) I) = -128.
Proof. reflexivity. Qed.

(** ** Running the closure *)

(** The switch only reads the receiver. *)
Lemma visit_value_state (p : Posflag) (f : Flag) (keyName : string)
    (mp : gmap string iface) :
  snd (visit_value f keyName mp p) = p.
Proof.
  unfold visit_value. run_state.
  repeat match goal with
         | |- context [if ?b then _ else _] => destruct b
         | |- context [let '(_, _) := ?x in _] => destruct x
         | |- context [match ?x with Some _ => _ | None => _ end] => destruct x
         end; reflexivity.
Qed.

(** The closure is the inclusion decision followed by the switch. *)
Lemma visit_run (p : Posflag) (f : Flag) (mp : gmap string iface) :
  visit f mp p =
  (if included p f then fst (visit_value f (key_name p f) mp p) else mp, p).
Proof.
  unfold visit, included, key_name. run_state.
  pose proof (visit_value_state p f) as Hst.
  destruct (Changed f); simpl.
  - rewrite (surjective_pairing (visit_value _ _ _ _)), Hst. reflexivity.
  - destruct (ko p) as [k|]; [|reflexivity].
    destruct (Exists k _); simpl; [reflexivity|].
    rewrite (surjective_pairing (visit_value _ _ _ _)), Hst. reflexivity.
Qed.

Lemma visit_state (p : Posflag) (f : Flag) (mp : gmap string iface) :
  snd (visit f mp p) = p.
Proof. rewrite visit_run. reflexivity. Qed.

(** [VisitAll] with the closure of [Read] is a left fold and leaves the
    receiver alone. *)
Lemma VisitAll_visit_run (p : Posflag) (flags : list Flag)
    (mp : gmap string iface) :
  VisitAll flags visit mp p = (foldl (fun m f => fst (visit f m p)) mp flags, p).
Proof.
  revert mp. induction flags as [|f flags IH]; intros mp.
  - reflexivity.
  - simpl. unfold mbind, State_bind. rewrite (visit_run p f mp), IH.
    reflexivity.
Qed.

Lemma VisitAll_visit_app (p : Posflag) (l1 l2 : list Flag)
    (mp : gmap string iface) :
  fst (VisitAll (l1 ++ l2) visit mp p)
  = fst (VisitAll l2 visit (fst (VisitAll l1 visit mp p)) p).
Proof. rewrite !VisitAll_visit_run. simpl. apply foldl_app. Qed.

Lemma Read_flat_run (p : Posflag) :
  Read_flat p = (fst (VisitAll (formal (flagset p)) visit ∅ p), p).
Proof.
  unfold Read_flat. run_state. rewrite VisitAll_visit_run. reflexivity.
Qed.

Lemma Read_run (p : Posflag) :
  Read p = ((Unflatten (fst (Read_flat p)) (delim p), None), p).
Proof.
  unfold Read. run_state. rewrite Read_flat_run. reflexivity.
Qed.

(** ** Integer widths *)

Lemma in_rangeb_spec (w z : Z) :
  Is_true (in_rangeb w z) <-> - 2 ^ (w - 1) <= z < 2 ^ (w - 1).
Proof.
  unfold in_rangeb. rewrite andb_True, !Is_true_true, Z.leb_le, Z.ltb_lt.
  reflexivity.
Qed.

Lemma wrap_id (w z : Z) :
  0 < w -> - 2 ^ (w - 1) <= z < 2 ^ (w - 1) -> wrap w z = z.
Proof.
  intros Hw Hz. unfold wrap.
  assert (2 ^ w = 2 * 2 ^ (w - 1)) as ->.
  { rewrite <- Z.pow_succ_r by lia. f_equal. lia. }
  rewrite Z.mod_small by lia. lia.
Qed.

Lemma in_range_widen (w w' z : Z) :
  0 < w <= w' ->
  - 2 ^ (w - 1) <= z < 2 ^ (w - 1) -> - 2 ^ (w' - 1) <= z < 2 ^ (w' - 1).
Proof.
  intros Hw Hz.
  assert (2 ^ (w - 1) <= 2 ^ (w' - 1)) by (apply Z.pow_le_mono_r; lia).
  lia.
Qed.

(** [int64(i)] keeps the number, whatever the width of [i]. *)
Lemma int64_sval {w : Z} (i : sint w) :
  0 < w <= 64 -> int64 i = sval i /\ Is_true (in_rangeb 64 (sval i)).
Proof.
  intros Hw. pose proof (sval_ok i) as Hi. apply in_rangeb_spec in Hi.
  pose proof (in_range_widen w 64 (sval i) Hw Hi) as H64.
  split; [apply wrap_id; [lia|exact H64] | apply in_rangeb_spec; exact H64].
Qed.

(** ** The cases of the switch *)

Lemma visit_value_int p f k mp :
  Type_ (Value f) = "int" ->
  fst (visit_value f k mp p)
  = <[k := VInt64 (int64 (fst (GetInt (flagset p) (Name f))))]> mp.
Proof. intros H. switch_case H. Qed.

Lemma visit_value_int8 p f k mp :
  Type_ (Value f) = "int8" ->
  fst (visit_value f k mp p)
  = <[k := VInt64 (int64 (fst (GetInt8 (flagset p) (Name f))))]> mp.
Proof. intros H. switch_case H. Qed.

Lemma visit_value_int16 p f k mp :
  Type_ (Value f) = "int16" ->
  fst (visit_value f k mp p)
  = <[k := VInt64 (int64 (fst (GetInt16 (flagset p) (Name f))))]> mp.
Proof. intros H. switch_case H. Qed.

Lemma visit_value_int32 p f k mp :
  Type_ (Value f) = "int32" ->
  fst (visit_value f k mp p)
  = <[k := VInt64 (int64 (fst (GetInt32 (flagset p) (Name f))))]> mp.
Proof. intros H. switch_case H. Qed.

Lemma visit_value_int64 p f k mp :
  Type_ (Value f) = "int64" ->
  fst (visit_value f k mp p)
  = <[k := VInt64 (int64 (fst (GetInt64 (flagset p) (Name f))))]> mp.
Proof. intros H. switch_case H. Qed.

Lemma visit_value_float32 p f k mp :
  Type_ (Value f) = "float32" ->
  fst (visit_value f k mp p)
  = <[k := VFloat32 (fst (GetFloat32 (flagset p) (Name f)))]> mp.
Proof. intros H. switch_case H. Qed.

Lemma visit_value_float p f k mp :
  Type_ (Value f) = "float" ->
  fst (visit_value f k mp p)
  = <[k := VFloat64 (fst (GetFloat64 (flagset p) (Name f)))]> mp.
Proof. intros H. switch_case H. Qed.

Lemma visit_value_bool p f k mp :
  Type_ (Value f) = "bool" ->
  fst (visit_value f k mp p)
  = <[k := VBool (fst (GetBool (flagset p) (Name f)))]> mp.
Proof. intros H. switch_case H. Qed.

Lemma visit_value_stringSlice p f k mp :
  Type_ (Value f) = "stringSlice" ->
  fst (visit_value f k mp p)
  = <[k := VStringSlice (fst (GetStringSlice (flagset p) (Name f)))]> mp.
Proof. intros H. switch_case H. Qed.

Lemma visit_value_intSlice p f k mp :
  Type_ (Value f) = "intSlice" ->
  fst (visit_value f k mp p)
  = <[k := VIntSlice (fst (GetIntSlice (flagset p) (Name f)))]> mp.
Proof. intros H. switch_case H. Qed.

(** What [Read] stores for a flag of a recognized type. *)
Lemma visit_value_recognized (p : Posflag) (f : Flag) (k : string)
    (mp : gmap string iface) :
  Type_ (Value f) ∈ recognized ->
  fst (visit_value f k mp p)
  = <[k := match typed_value (flagset p) f with
           | Ok v => v
           | Err _ => zero_value (Type_ (Value f))
           end]> mp.
Proof.
  intros Hty. unfold recognized in Hty.
  repeat (apply elem_of_cons in Hty as [Hty|Hty]);
    [ rewrite (visit_value_int _ _ _ _ Hty)
    | rewrite (visit_value_int8 _ _ _ _ Hty)
    | rewrite (visit_value_int16 _ _ _ _ Hty)
    | rewrite (visit_value_int32 _ _ _ _ Hty)
    | rewrite (visit_value_int64 _ _ _ _ Hty)
    | rewrite (visit_value_float32 _ _ _ _ Hty)
    | rewrite (visit_value_float _ _ _ _ Hty)
    | rewrite (visit_value_bool _ _ _ _ Hty)
    | rewrite (visit_value_stringSlice _ _ _ _ Hty)
    | rewrite (visit_value_intSlice _ _ _ _ Hty)
    | by apply elem_of_nil in Hty ];
    unfold typed_value, zero_value, int_value; rewrite Hty; simpl;
    unfold GetInt, GetInt8, GetInt16, GetInt32, GetInt64, GetFloat32,
      GetFloat64, GetBool, GetStringSlice, GetIntSlice;
    match goal with
    | |- context [getter _ ?r] => destruct r as [v|e]
    end; simpl; try reflexivity;
    f_equal; f_equal; apply int64_sval; lia.
Qed.

(** The switch, case by case. *)
Lemma visit_value_default (p : Posflag) (f : Flag) (keyName : string)
    (mp : gmap string iface) :
  Type_ (Value f) ∉ recognized ->
  fst (visit_value f keyName mp p) = default_case p f keyName mp.
Proof.
  intros Hty. unfold visit_value, default_case. run_state.
  repeat match goal with
         | |- context [String.eqb ?a ?b] =>
             let E := fresh "E" in
             destruct (String.eqb_spec a b) as [E|E];
             [exfalso; apply Hty; rewrite E; unfold recognized; set_solver|]
         end.
  destruct (valueCallback p) as [cb|]; [|reflexivity].
  destruct (cb keyName _) as [key value]; simpl.
  destruct (String.eqb_spec key ""); case_decide; simpl; congruence.
Qed.

(** ** Splitting and joining *)

Lemma Join_cons (a : string) (rest : list string) (sep : string) :
  rest <> [] -> Join (a :: rest) sep = a +:+ sep +:+ Join rest sep.
Proof. destruct rest; [contradiction|reflexivity]. Qed.

Lemma Join_cons_char (c : Ascii.ascii) (tok : string) (rest : list string)
    (sep : string) :
  Join (String c tok :: rest) sep = String c (Join (tok :: rest) sep).
Proof. destruct rest; reflexivity. Qed.

Lemma genSplit_nonempty (sep : string) (s : string) (skip : nat) :
  genSplit sep skip s <> [].
Proof.
  revert skip. induction s as [|c s IH]; intros skip; cbn [genSplit];
    [discriminate|].
  destruct skip; [|apply IH].
  destruct (String.prefix sep (String c s)); [discriminate|].
  destruct (genSplit sep 0 s); discriminate.
Qed.

Lemma prefix_drop (a b : string) :
  String.prefix a b = true -> a +:+ string_drop (String.length a) b = b.
Proof.
  revert b. induction a as [|c a IH]; intros b Hpre; [reflexivity|].
  destruct b as [|c' b]; cbn [String.prefix] in Hpre; [discriminate|].
  destruct (Ascii.ascii_dec c c') as [Hc|]; [subst c'|discriminate].
  cbn [String.length string_drop]. change (String c a +:+ ?x) with (String c (a +:+ x)).
  f_equal. apply IH, Hpre.
Qed.

Lemma Join_genSplit (sep : string) (s : string) (skip : nat) :
  sep <> EmptyString ->
  Join (genSplit sep skip s) sep = string_drop skip s.
Proof.
  intros Hsep. revert skip.
  induction s as [|c s IH]; intros skip; cbn [genSplit].
  - destruct skip; reflexivity.
  - destruct skip as [|n]; [|apply IH].
    destruct (String.prefix sep (String c s)) eqn:Hpre.
    + rewrite Join_cons by apply genSplit_nonempty.
      rewrite IH.
      destruct sep as [|a sep]; [contradiction|].
      pose proof (prefix_drop _ _ Hpre) as Hd. exact Hd.
    + specialize (IH O). cbn [string_drop] in IH.
      destruct (genSplit sep 0 s) as [|tok rest] eqn:Hg.
      * exfalso. eapply genSplit_nonempty, Hg.
      * rewrite Join_cons_char, IH. reflexivity.
Qed.

Lemma rune_width_pos (c : Ascii.ascii) (s : string) :
  (1 <= rune_width (String c s))%nat.
Proof.
  unfold rune_width. destruct (first c) as [[[sz lo] hi]|]; [|lia].
  repeat match goal with
         | |- context [if ?b then _ else _] => destruct b
         | |- context [match ?x with EmptyString => _ | String _ _ => _ end] =>
             destruct x
         end; lia.
Qed.

Lemma string_take_drop (n : nat) (s : string) :
  string_take n s +:+ string_drop n s = s.
Proof.
  revert s. induction n as [|n IH]; intros s; [by destruct s|].
  destruct s as [|c s]; [reflexivity|]. cbn [string_take string_drop].
  change (String c ?a +:+ ?b) with (String c (a +:+ b)). by rewrite IH.
Qed.

Lemma string_drop_length (n : nat) (s : string) :
  String.length (string_drop n s) = (String.length s - n)%nat.
Proof.
  revert s. induction n as [|n IH]; intros s; [simpl; lia|].
  destruct s as [|c s]; [reflexivity|]. cbn [string_drop String.length].
  by rewrite IH.
Qed.

Lemma string_app_empty_r (s : string) : s +:+ EmptyString = s.
Proof.
  induction s as [|c s IH]; [reflexivity|].
  change (String c s +:+ EmptyString) with (String c (s +:+ EmptyString)).
  by rewrite IH.
Qed.

Lemma Join_cons_empty_sep (a : string) (rest : list string) :
  Join (a :: rest) EmptyString = a +:+ Join rest EmptyString.
Proof.
  destruct rest; [symmetry; apply string_app_empty_r|reflexivity].
Qed.

Lemma Join_explode_loop (fuel : nat) (s : string) :
  (String.length s <= fuel)%nat ->
  Join (explode_loop fuel s) EmptyString = s.
Proof.
  revert s. induction fuel as [|fuel IH]; intros s Hlen.
  - destruct s; [reflexivity|simpl in Hlen; lia].
  - destruct s as [|c s]; [reflexivity|]. cbn [explode_loop].
    rewrite Join_cons_empty_sep, IH; [apply string_take_drop|].
    rewrite string_drop_length. pose proof (rune_width_pos c s).
    cbn [String.length] in *. lia.
Qed.

Lemma Join_explode (s : string) : Join (explode s) EmptyString = s.
Proof. apply Join_explode_loop. reflexivity. Qed.

(** Joining the pieces of a key gives the key back. *)
Lemma Join_Split (k d : string) : Join (Split k d) d = k.
Proof.
  unfold Split. destruct d as [|a d].
  - apply Join_explode.
  - rewrite Join_genSplit by discriminate. reflexivity.
Qed.

Lemma Join_key_path (k d : string) : Join (key_path k d) d = k.
Proof.
  unfold key_path. pose proof (Join_Split k d) as H.
  destruct (Split k d); [reflexivity|exact H].
Qed.

Lemma key_path_nonempty (k d : string) : key_path k d <> [].
Proof. unfold key_path. destruct (Split k d); discriminate. Qed.

(** ** Leaves of a nested tree *)

Lemma depth_lookup (m : gmap string iface) (k : string) (sub : iface) :
  m !! k = Some sub -> (depth sub < depth (VMap m))%nat.
Proof.
  intros Hk. cbn [depth]. rewrite map_fold_foldr.
  apply elem_of_map_to_list in Hk.
  induction (map_to_list m) as [|[k' x] l IH]; [by apply elem_of_nil in Hk|].
  apply elem_of_cons in Hk as [Hk|Hk]; simpl in *.
  - injection Hk as -> ->. lia.
  - specialize (IH Hk). lia.
Qed.

(** Induction on values, with the hypothesis for every value of a
    mapping. *)
Lemma iface_nested_ind (P : iface -> Prop) :
  (forall v, (forall m, v <> VMap m) -> P v) ->
  (forall m, (forall k sub, m !! k = Some sub -> P sub) -> P (VMap m)) ->
  forall v, P v.
Proof.
  intros Hbase Hmap v.
  remember (depth v) as n eqn:Hn. revert v Hn.
  induction n as [n IH] using lt_wf_ind. intros v ->.
  destruct v as [| | | | | | | |m];
    try (apply Hbase; intros m'; discriminate).
  apply Hmap. intros k sub Hk.
  apply (IH (depth sub)); [eapply depth_lookup, Hk|reflexivity].
Qed.

Lemma leaf_in_empty (q : list string) : q <> [] -> leaf_in q (VMap ∅) = None.
Proof. destruct q; [contradiction|]. intros _. simpl. by rewrite lookup_empty. Qed.

Lemma leaf_in_leaf (q : list string) (v : iface) :
  q <> [] -> Is_true (is_leaf v) -> leaf_in q v = None.
Proof.
  destruct q as [|k q]; [contradiction|]. intros _ Hv.
  destruct v; simpl in *; try reflexivity.
  apply bool_decide_unpack in Hv. subst. by rewrite lookup_empty.
Qed.

Lemma nest_nonempty (p : list string) (v : iface) (t : gmap string iface) :
  p <> [] -> nest p v t <> ∅.
Proof.
  destruct p as [|k [|k' p]]; [contradiction| |]; intros _; simpl;
    apply insert_non_empty.
Qed.

Lemma nest_cons (k : string) (p : list string) (v : iface)
    (t : gmap string iface) :
  p <> [] ->
  nest (k :: p) v t
  = <[k := VMap (nest p v (match t !! k with
                           | Some (VMap m) => m
                           | _ => ∅
                           end))]> t.
Proof. destruct p; [contradiction|reflexivity]. Qed.

(** The entry just nested is a leaf of the tree. *)
Lemma nest_leaf_same (p : list string) (v : iface) (t : gmap string iface) :
  p <> [] -> Is_true (is_leaf v) -> leaf_in p (VMap (nest p v t)) = Some v.
Proof.
  intros Hp Hv. revert t. induction p as [|k p IH]; intros t; [contradiction|].
  destruct (decide (p = [])) as [->|Hp'].
  - simpl. rewrite lookup_insert_eq. simpl.
    destruct (is_leaf v); [reflexivity|contradiction].
  - rewrite nest_cons by exact Hp'. cbn [leaf_in].
    rewrite lookup_insert_eq. apply IH, Hp'.
Qed.

(** Nesting an entry leaves the other branches of the tree alone. *)
Lemma nest_leaf_other (p q : list string) (v : iface)
    (t : gmap string iface) :
  ¬ p `prefix_of` q -> ¬ q `prefix_of` p ->
  leaf_in q (VMap (nest p v t)) = leaf_in q (VMap t).
Proof.
  revert q t. induction p as [|k p IH]; intros q t Hpq Hqp.
  - exfalso. apply Hpq, prefix_nil.
  - destruct q as [|k' q]; [exfalso; apply Hqp, prefix_nil|].
    destruct (decide (k = k')) as [<-|Hk].
    + assert (Hpq' : ¬ p `prefix_of` q) by (intros H; apply Hpq, prefix_cons, H).
      assert (Hqp' : ¬ q `prefix_of` p) by (intros H; apply Hqp, prefix_cons, H).
      assert (Hp : p <> []) by (intros ->; apply Hpq', prefix_nil).
      assert (Hq : q <> []) by (intros ->; apply Hqp', prefix_nil).
      rewrite nest_cons by exact Hp. cbn [leaf_in].
      rewrite lookup_insert_eq, IH by assumption.
      destruct (t !! k) as [[| | | | | | | |m]|];
        try reflexivity; try (rewrite leaf_in_empty by exact Hq;
                              destruct q; [contradiction|reflexivity]).
    + destruct (decide (p = [])) as [->|Hp].
      * simpl. by rewrite lookup_insert_ne.
      * rewrite nest_cons by exact Hp. cbn [leaf_in].
        by rewrite lookup_insert_ne.
Qed.

(** Above the entry just nested there are mappings, not leaves. *)
Lemma nest_leaf_above (p q r : list string) (v : iface)
    (t : gmap string iface) :
  p = q ++ r -> r <> [] -> leaf_in q (VMap (nest p v t)) = None.
Proof.
  revert q t. induction p as [|k p IH]; intros q t Hp Hr.
  - destruct q, r; simpl in Hp; try discriminate; contradiction.
  - destruct q as [|k' q].
    + simpl in Hp. subst r. cbn [leaf_in is_leaf].
      rewrite bool_decide_eq_false_2; [reflexivity|].
      apply nest_nonempty. discriminate.
    + injection Hp as <- Hp.
      assert (Hp' : p <> []) by (intros ->; destruct q, r; try discriminate; contradiction).
      rewrite nest_cons by exact Hp'. cbn [leaf_in].
      rewrite lookup_insert_eq. apply IH; assumption.
Qed.

(** Below the entry just nested there is nothing. *)
Lemma nest_leaf_below (p q r : list string) (v : iface)
    (t : gmap string iface) :
  p <> [] -> Is_true (is_leaf v) -> q = p ++ r -> r <> [] ->
  leaf_in q (VMap (nest p v t)) = None.
Proof.
  intros Hp Hv. revert q t. induction p as [|k p IH]; intros q t Hq Hr;
    [contradiction|].
  subst q. destruct (decide (p = [])) as [->|Hp'].
  - simpl. rewrite lookup_insert_eq. apply leaf_in_leaf; assumption.
  - rewrite nest_cons by exact Hp'. cbn [leaf_in app].
    change ((k :: p) ++ r) with (k :: (p ++ r)). cbn [leaf_in].
    rewrite lookup_insert_eq. apply IH; [exact Hp'|reflexivity|exact Hr].
Qed.

Lemma nest_leaf_inv (p q : list string) (v x : iface)
    (t : gmap string iface) :
  p <> [] -> Is_true (is_leaf v) ->
  leaf_in q (VMap (nest p v t)) = Some x ->
  (q = p /\ x = v) \/
  (¬ p `prefix_of` q /\ ¬ q `prefix_of` p /\ leaf_in q (VMap t) = Some x).
Proof.
  intros Hp Hv Hleaf.
  destruct (decide (p `prefix_of` q)) as [[r Hr]|Hpq].
  - destruct (decide (r = [])) as [->|Hne].
    + rewrite app_nil_r in Hr. subst q.
      rewrite nest_leaf_same in Hleaf by assumption.
      left. split; congruence.
    + rewrite (nest_leaf_below p q r) in Hleaf by assumption. discriminate.
  - destruct (decide (q `prefix_of` p)) as [[r Hr]|Hqp].
    + assert (Hne : r <> []).
      { intros ->. rewrite app_nil_r in Hr. subst q. apply Hpq. reflexivity. }
      rewrite (nest_leaf_above p q r) in Hleaf by assumption. discriminate.
    + right. rewrite nest_leaf_other in Hleaf by assumption. tauto.
Qed.

Lemma unflatten_entries_snoc (l : list (string * iface)) (k : string)
    (v : iface) (d : string) :
  unflatten_entries (l ++ [(k, v)]) d
  = nest (key_path k d) v (unflatten_entries l d).
Proof. unfold unflatten_entries. rewrite foldl_app. reflexivity. Qed.

(** The leaves of the nested tree are the entries it was built from. *)
Lemma unflatten_entries_leaves (l : list (string * iface)) (d : string) :
  NoDup (l.*1) ->
  Forall (fun kv => Is_true (is_leaf (snd kv))) l ->
  (forall k1 k2, k1 ∈ l.*1 -> k2 ∈ l.*1 ->
     key_path k1 d `prefix_of` key_path k2 d -> k1 = k2) ->
  forall q x, q <> [] ->
    leaf_in q (VMap (unflatten_entries l d)) = Some x <->
    exists k, (k, x) ∈ l /\ key_path k d = q.
Proof.
  induction l as [|[k v] l IH] using rev_ind; intros Hdup Hflat Hcol q x Hq.
  - unfold unflatten_entries. simpl. rewrite leaf_in_empty by exact Hq. split.
    + discriminate.
    + intros (k & Hk & _). by apply elem_of_nil in Hk.
  - rewrite fmap_app in Hdup, Hcol. simpl in Hdup, Hcol.
    apply NoDup_app in Hdup as (Hdup & Hfresh & _).
    apply Forall_app in Hflat as [Hflat Hv].
    apply Forall_inv in Hv. simpl in Hv.
    assert (IH' := IH Hdup Hflat).
    assert (Hcol' : forall k1 k2, k1 ∈ l.*1 -> k2 ∈ l.*1 ->
              key_path k1 d `prefix_of` key_path k2 d -> k1 = k2).
    { intros k1 k2 H1 H2. apply Hcol; apply elem_of_app; by left. }
    specialize (IH' Hcol'). clear IH.
    rewrite unflatten_entries_snoc. split.
    + intros Hleaf.
      apply nest_leaf_inv in Hleaf as [[-> ->]|(_ & _ & Hleaf)];
        [ | | apply key_path_nonempty | exact Hv ].
      * exists k. split; [apply elem_of_app; right; by apply list_elem_of_singleton|reflexivity].
      * apply IH' in Hleaf as (k' & Hk' & Hpath); [|exact Hq].
        exists k'. split; [apply elem_of_app; by left|exact Hpath].
    + intros (k' & Hk' & Hpath). apply elem_of_app in Hk' as [Hk'|Hk'].
      * assert (Hin : k' ∈ l.*1).
        { apply list_elem_of_fmap. exists (k', x). split; [reflexivity|exact Hk']. }
        assert (Hne : k' <> k).
        { intros ->. apply (Hfresh k Hin). by apply list_elem_of_singleton. }
        assert (Hk : k ∈ l.*1 ++ [k]).
        { apply elem_of_app. right. by apply list_elem_of_singleton. }
        assert (Hk'' : k' ∈ l.*1 ++ [k]) by (apply elem_of_app; by left).
        rewrite nest_leaf_other.
        -- apply IH'; [exact Hq|]. exists k'. split; assumption.
        -- rewrite <- Hpath. intros Hpre. apply Hne. symmetry.
           apply (Hcol k k' Hk Hk'' Hpre).
        -- rewrite <- Hpath. intros Hpre. apply Hne.
           apply (Hcol k' k Hk'' Hk Hpre).
      * apply list_elem_of_singleton in Hk'. injection Hk' as -> ->.
        rewrite <- Hpath. apply nest_leaf_same; [apply key_path_nonempty|exact Hv].
Qed.

(** ** What flattening writes *)

Lemma flatten_leaf (v : iface) (kp : list string) (d : string)
    (out : gmap string iface) :
  Is_true (is_leaf v) -> flatten v kp d out = <[Join kp d := v]> out.
Proof.
  destruct v; try reflexivity. simpl. intros H.
  destruct (bool_decide (m = ∅)); [reflexivity|contradiction].
Qed.

Lemma map_fold_foldr_pair {B : Type} (g : string -> iface -> B -> B) (b : B)
    (m : gmap string iface) :
  map_fold g b m = foldr (fun kv acc => g (fst kv) (snd kv) acc) b (map_to_list m).
Proof.
  rewrite map_fold_foldr.
  induction (map_to_list m) as [|[k sub] l IH]; simpl; [|rewrite IH];
    reflexivity.
Qed.

Lemma flatten_map (m : gmap string iface) (kp : list string) (d : string)
    (out : gmap string iface) :
  m <> ∅ ->
  flatten (VMap m) kp d out
  = foldr (fun kv acc => flatten (snd kv) (kp ++ [fst kv]) d acc) out
          (map_to_list m).
Proof.
  intros Hm. cbn [flatten]. rewrite bool_decide_eq_false_2 by exact Hm.
  apply (map_fold_foldr_pair (fun k sub acc => flatten sub (kp ++ [k]) d acc)).
Qed.

Lemma is_leaf_cases (v : iface) :
  Is_true (is_leaf v) \/ exists m, v = VMap m /\ m <> ∅.
Proof.
  destruct v; try (left; exact I).
  destruct (decide (m = ∅)) as [->|Hm].
  - left. simpl. by rewrite bool_decide_eq_true_2.
  - right. eauto.
Qed.

(** Flattening only adds to the output. *)
Lemma flatten_mono (d : string) (v : iface) :
  forall kp out key,
    is_Some (out !! key) -> is_Some (flatten v kp d out !! key).
Proof.
  induction v as [v Hv|m IH] using iface_nested_ind; intros kp out key Hout.
  - rewrite flatten_leaf; [|by destruct v; try exact I; destruct (Hv m)].
    rewrite lookup_insert_is_Some'. by right.
  - destruct (is_leaf_cases (VMap m)) as [Hleaf|(m' & [= <-] & Hm)].
    + rewrite flatten_leaf by exact Hleaf.
      rewrite lookup_insert_is_Some'. by right.
    + rewrite flatten_map by exact Hm.
      assert (Hin : forall kv, kv ∈ map_to_list m -> m !! fst kv = Some (snd kv)).
      { intros [k sub]. apply elem_of_map_to_list. }
      induction (map_to_list m) as [|[k sub] l IHl]; [exact Hout|].
      simpl. eapply IH.
      * apply (Hin (k, sub)). by left.
      * apply IHl. intros kv Hkv. apply Hin. by right.
Qed.

(** Every entry of the output was there before or is a leaf of the value,
    under the joined levels of the leaf. *)
Lemma flatten_lookup_inv (d : string) (v : iface) :
  forall kp out key x,
    flatten v kp d out !! key = Some x ->
    out !! key = Some x \/
    exists q, leaf_in q v = Some x /\ Join (kp ++ q) d = key.
Proof.
  induction v as [v Hv|m IH] using iface_nested_ind; intros kp out key x Hx.
  - assert (Hleaf : Is_true (is_leaf v))
      by (destruct v; try exact I; destruct (Hv m); reflexivity).
    rewrite flatten_leaf in Hx by exact Hleaf.
    apply lookup_insert_Some in Hx as [[<- <-]|[_ Hx]]; [|by left].
    right. exists []. rewrite app_nil_r. simpl.
    destruct (is_leaf v); [done|contradiction].
  - destruct (is_leaf_cases (VMap m)) as [Hleaf|(m' & [= <-] & Hm)].
    + rewrite flatten_leaf in Hx by exact Hleaf.
      apply lookup_insert_Some in Hx as [[<- <-]|[_ Hx]]; [|by left].
      right. exists []. rewrite app_nil_r. cbn [leaf_in].
      destruct (is_leaf (VMap m)); [done|contradiction].
    + rewrite flatten_map in Hx by exact Hm.
      assert (Hin : forall kv, kv ∈ map_to_list m -> m !! fst kv = Some (snd kv)).
      { intros [k sub]. apply elem_of_map_to_list. }
      revert x Hx.
      induction (map_to_list m) as [|[k sub] l IHl]; intros x Hx; [by left|].
      simpl in Hx.
      assert (Hk : m !! k = Some sub) by (apply (Hin (k, sub)); by left).
      apply (IH k sub Hk) in Hx as [Hx|(q & Hq & Hjoin)].
      * apply IHl; [|exact Hx]. intros kv Hkv. apply Hin. by right.
      * right. exists (k :: q). cbn [leaf_in]. rewrite Hk.
        split; [exact Hq|]. rewrite <- Hjoin, <- app_assoc. reflexivity.
Qed.

(** Every leaf of the value is written, under its joined levels. *)
Lemma flatten_lookup_leaf (d : string) (v : iface) :
  forall q kp out x,
    leaf_in q v = Some x ->
    is_Some (flatten v kp d out !! Join (kp ++ q) d).
Proof.
  induction v as [v Hv|m IH] using iface_nested_ind; intros q kp out x Hx.
  - assert (Hleaf : Is_true (is_leaf v))
      by (destruct v; try exact I; destruct (Hv m); reflexivity).
    destruct q as [|k q]; [|by destruct v; try discriminate; destruct (Hv m)].
    rewrite flatten_leaf, app_nil_r, lookup_insert_eq by exact Hleaf. eauto.
  - destruct q as [|k q].
    + cbn [leaf_in] in Hx.
      destruct (is_leaf (VMap m)) eqn:Hleaf; [|discriminate].
      rewrite flatten_leaf, app_nil_r, lookup_insert_eq; [eauto|].
      rewrite Hleaf. exact I.
    + cbn [leaf_in] in Hx. destruct (m !! k) as [sub|] eqn:Hk; [|discriminate].
      assert (Hm : m <> ∅) by (intros ->; by rewrite lookup_empty in Hk).
      rewrite flatten_map by exact Hm.
      apply elem_of_map_to_list in Hk as Hel.
      assert (Hin : forall kv, kv ∈ map_to_list m -> m !! fst kv = Some (snd kv)).
      { intros [k' sub']. apply elem_of_map_to_list. }
      induction (map_to_list m) as [|[k' sub'] l IHl];
        [by apply elem_of_nil in Hel|].
      simpl. apply elem_of_cons in Hel as [[= <- <-]|Hel].
      * replace (kp ++ k :: q) with ((kp ++ [k]) ++ q)
          by (rewrite <- app_assoc; reflexivity).
        eapply IH; [exact Hk|exact Hx].
      * apply flatten_mono. apply IHl; [exact Hel|].
        intros kv Hkv. apply Hin. by right.
Qed.

Lemma Flatten_empty (d : string) : Flatten ∅ d = ∅.
Proof. unfold Flatten. apply map_fold_empty. Qed.

Lemma Flatten_nonempty (t : gmap string iface) (d : string) :
  t <> ∅ -> Flatten t d = flatten (VMap t) [] d ∅.
Proof.
  intros Ht. rewrite flatten_map by exact Ht. unfold Flatten.
  apply (map_fold_foldr_pair (fun k sub acc => flatten sub [k] d acc)).
Qed.

Section RoundTrip.
Variables (m : gmap string iface) (d : string) (l : list (string * iface)).
Hypothesis m_flat : flat m.
Hypothesis m_no_collision : NoCollision m d.
Hypothesis l_order : l ≡ₚ map_to_list m.

Lemma entry_lookup (k : string) (v : iface) : (k, v) ∈ l <-> m !! k = Some v.
Proof. rewrite l_order. apply elem_of_map_to_list. Qed.

Lemma tree_leaves (q : list string) (x : iface) :
  q <> [] ->
  leaf_in q (VMap (unflatten_entries l d)) = Some x <->
  exists k, m !! k = Some x /\ key_path k d = q.
Proof.
  intros Hq. rewrite unflatten_entries_leaves; [| | | |exact Hq].
  - split; intros (k & Hk & Hp); exists k; split; try exact Hp;
      by apply entry_lookup.
  - rewrite l_order. apply NoDup_fst_map_to_list.
  - apply Forall_forall. intros [k v] Hkv. apply entry_lookup in Hkv.
    apply (m_flat k v Hkv).
  - intros k1 k2 H1 H2.
    apply list_elem_of_fmap in H1 as ([k1' v1] & -> & H1).
    apply list_elem_of_fmap in H2 as ([k2' v2] & -> & H2).
    apply entry_lookup in H1, H2. simpl.
    apply (m_no_collision k1' v1 H1 k2' v2 H2).
Qed.

Lemma tree_nonempty (k : string) (v : iface) :
  m !! k = Some v -> unflatten_entries l d <> ∅.
Proof.
  intros Hk Hempty.
  assert (H : leaf_in (key_path k d) (VMap (unflatten_entries l d)) = Some v).
  { apply tree_leaves; [apply key_path_nonempty|]. eauto. }
  rewrite Hempty, leaf_in_empty in H by apply key_path_nonempty.
  discriminate.
Qed.

Lemma Flatten_sound (key : string) (x : iface) :
  Flatten (unflatten_entries l d) d !! key = Some x -> m !! key = Some x.
Proof.
  intros Hx.
  destruct (decide (unflatten_entries l d = ∅)) as [Hempty|Hne].
  { rewrite Hempty, Flatten_empty, lookup_empty in Hx. discriminate. }
  rewrite Flatten_nonempty in Hx by exact Hne.
  apply flatten_lookup_inv in Hx as [Hx|(q & Hleaf & Hjoin)];
    [by rewrite lookup_empty in Hx|].
  simpl in Hjoin.
  assert (Hq : q <> []).
  { intros ->. cbn [leaf_in is_leaf] in Hleaf.
    rewrite bool_decide_eq_false_2 in Hleaf by exact Hne. discriminate. }
  apply tree_leaves in Hleaf as (k & Hk & Hpath); [|exact Hq].
  rewrite <- Hjoin, <- Hpath, Join_key_path. exact Hk.
Qed.

Lemma Flatten_complete (key : string) (v : iface) :
  m !! key = Some v -> Flatten (unflatten_entries l d) d !! key = Some v.
Proof.
  intros Hk.
  assert (Hleaf : leaf_in (key_path key d) (VMap (unflatten_entries l d))
                  = Some v).
  { apply tree_leaves; [apply key_path_nonempty|]. eauto. }
  pose proof (flatten_lookup_leaf d _ _ [] ∅ _ Hleaf) as [x Hx].
  change ([] ++ key_path key d) with (key_path key d) in Hx.
  rewrite Join_key_path in Hx.
  rewrite <- Flatten_nonempty in Hx by (eapply tree_nonempty, Hk).
  pose proof (Flatten_sound key x Hx) as Hm. congruence.
Qed.

Lemma Flatten_unflatten_entries : Flatten (unflatten_entries l d) d = m.
Proof.
  apply map_eq. intros key. destruct (m !! key) as [v|] eqn:Hk.
  - apply Flatten_complete, Hk.
  - destruct (Flatten (unflatten_entries l d) d !! key) as [x|] eqn:Hx;
      [|reflexivity].
    apply Flatten_sound in Hx. congruence.
Qed.
End RoundTrip.

(** ** The inclusion decision *)

(** C1. For every flag of the registry, wherever it stands in the visiting
    order, the inclusion decision of [Read] is: a flag that was not changed
    contributes nothing when no parent koanf is configured; with a parent
    koanf it contributes nothing when the parent reports that the key
    exists, and goes on to the type switch (its default is included) when
    the parent reports that the key does not exist; a changed flag always
    goes on to the type switch, whatever the parent reports. *)
Theorem Read_inclusion_decision (p : Posflag) (l1 l2 : list Flag) (f : Flag) :
  formal (flagset p) = l1 ++ f :: l2 ->
  let before := fst (VisitAll l1 visit ∅ p) in
  let without := fst (VisitAll (l1 ++ l2) visit ∅ p) in
  let with_flag :=
    fst (VisitAll l2 visit (fst (visit_value f (key_name p f) before p)) p) in
  (Changed f = false -> ko p = None -> fst (Read_flat p) = without) /\
  (forall k, Changed f = false -> ko p = Some k ->
     (Exists k (key_name p f) = true -> fst (Read_flat p) = without) /\
     (Exists k (key_name p f) = false -> fst (Read_flat p) = with_flag)) /\
  (Changed f = true -> fst (Read_flat p) = with_flag).
Proof.
  intros Hreg before without with_flag.
  assert (Hsplit : fst (Read_flat p)
                   = fst (VisitAll l2 visit (fst (visit f before p)) p)).
  { rewrite Read_flat_run, Hreg. simpl.
    rewrite VisitAll_visit_app. simpl. unfold mbind, State_bind.
    rewrite (surjective_pairing (visit f _ p)), visit_state. reflexivity. }
  assert (Hwithout : without = fst (VisitAll l2 visit before p)).
  { unfold without. apply VisitAll_visit_app. }
  rewrite Hsplit, Hwithout, (visit_run p f before). unfold included. simpl.
  split; [|split].
  - intros -> ->. reflexivity.
  - intros k -> ->. split; intros ->; reflexivity.
  - intros ->. reflexivity.
Qed.

Lemma Read_inclusion_decision_witness :
  fst (Read_flat (Provider demo_flags "." (Some demo_parent)))
  = {[ "level" := VInt64 127; "port" := VInt64 8080;
       "ratio" := VString "1.5"; "tags" := VStringSlice ["a"; "b"] ]}.
Proof.
  pose proof (Read_inclusion_decision
                (Provider demo_flags "." (Some demo_parent))
                [ demo_flag "host" "string" "localhost" false;
                  demo_flag "level" "int8" "127" true;
                  demo_flag "port" "int" "8080" true;
                  demo_flag "ratio" "float64" "1.5" true ]
                []
                (demo_flag "tags" "stringSlice" "[a,b]" false)
                eq_refl) as (_ & Hparent & _).
  destruct (Hparent demo_parent eq_refl eq_refl) as [_ Hin].
  rewrite (Hin eq_refl). vm_compute. reflexivity.
Defined.

(** ** Nesting round trip *)

(** C2. For a flat map (no value of it is a mapping to descend into) whose
    keys have no delimiter collision, nesting the keys by the delimiter, as
    [Read] does before it returns, and flattening the tree again by the
    same delimiter gives the flat map back exactly; and this in whatever
    order the entries of the map are nested. *)
Theorem Unflatten_Flatten_round_trip (m : gmap string iface) (d : string) :
  flat m -> NoCollision m d ->
  Flatten (Unflatten m d) d = m /\
  (forall l, l ≡ₚ map_to_list m -> Flatten (unflatten_entries l d) d = m).
Proof.
  intros Hflat Hcol.
  assert (H : forall l, l ≡ₚ map_to_list m ->
                        Flatten (unflatten_entries l d) d = m).
  { intros l Hl. apply Flatten_unflatten_entries; assumption. }
  split; [apply H; reflexivity|exact H].
Qed.

Lemma Unflatten_Flatten_round_trip_witness :
  Unflatten demo_flat "."
  = {[ "parent" := VMap {[ "child" := VMap {[ "key" := VInt64 1;
                                              "name" := VString "x" ]};
                           "list" := VStringSlice ["a"; "b"] ]};
       "top" := VBool true ]} /\
  Flatten (Unflatten demo_flat ".") "." = demo_flat.
Proof.
  split; [vm_compute; reflexivity|].
  assert (Hflat : flat demo_flat) by (unfold flat; compute_done).
  assert (Hcol : NoCollision demo_flat ".") by (unfold NoCollision; compute_done).
  exact (proj1 (Unflatten_Flatten_round_trip demo_flat "." Hflat Hcol)).
Defined.

(** Why the map has to be flat: a mapping stored as a value is descended
    into like the levels made by nesting. *)
Example Flatten_descends_into_values :
  Flatten (Unflatten {[ "a" := VMap {[ "x" := VInt64 1 ]} ]} ".") "."
  = {[ "a.x" := VInt64 1 ]}.
Proof. vm_compute. reflexivity. Qed.

(** Why the keys must not collide: of ["a"] and ["a.b"] only one entry
    stays in the tree. *)
Example Flatten_after_collision :
  forall l, l ≡ₚ [("a", VInt64 1); ("a.b", VInt64 2)] ->
  size (Flatten (unflatten_entries l ".") ".") = 1%nat.
Proof.
  intros l Hl. symmetry in Hl.
  apply Permutation_length_2_inv in Hl as [->| ->];
    vm_compute; reflexivity.
Qed.

(** ** Type coercion *)



(** The float cases of the switch: a flag whose type tag is "float32" is
    stored as a 32-bit float and a flag whose tag is "float" as a 64-bit
    float, two kinds that never coincide. *)
Lemma Read_float_tags (p : Posflag) (f : Flag) (mp : gmap string iface) :
  included p f = true ->
  (Type_ (Value f) = "float32" ->
   fst (visit f mp p)
   = <[key_name p f := VFloat32 (fst (GetFloat32 (flagset p) (Name f)))]> mp) /\
  (Type_ (Value f) = "float" ->
   fst (visit f mp p)
   = <[key_name p f := VFloat64 (fst (GetFloat64 (flagset p) (Name f)))]> mp) /\
  (forall (x : float32) (y : float64), VFloat32 x <> VFloat64 y).
Proof.
  intros Hin. rewrite (visit_run p f mp), Hin. split; [|split].
  - apply visit_value_float32.
  - apply visit_value_float.
  - discriminate.
Qed.

(** C4 (the code departs from the claim).  The 64-bit float flag [ratio]
    of the sample registry reports the type tag "float64" and holds 1.5;
    the switch of [Read] has its 64-bit float case under the tag "float",
    so the flag takes the default case and [Read] stores the string
    rendering "1.5" under its key, in the flat map and in the tree it
    returns, where the claim has a 64-bit float. *)
Theorem Read_float64_flag_as_string :
  lookupFloat64 demo_flags "ratio" = Ok (F64 4609434218613702656) /\
  fst (Read_flat (Provider demo_flags "." None)) !! "ratio"
  = Some (VString "1.5") /\
  fst (fst (Read (Provider demo_flags "." None))) !! "ratio"
  = Some (VString "1.5").
Proof. vm_compute. repeat split; reflexivity. Qed.





(** ** Renaming *)



(** ** Errors and effects *)

(** C8. [ReadBytes] always returns no bytes and its "not supported"
    error, and [Watch] always returns its "not supported" error; both
    leave the receiver as it was, and [Watch] leaves the world of its
    callback as it was, whatever the callback would do to it: the
    callback is not run. *)
Theorem ReadBytes_Watch_not_supported (p : Posflag) :
  ReadBytes p
  = ((None, Some (errors_New "pflag provider does not support this method")), p)
  /\
  (forall (W : Type) (cb : iface -> option error -> W -> W) (w : W),
     Watch cb (p, w)
     = (Some (errors_New "posflag provider does not support this method"),
        (p, w))).
Proof. split; reflexivity. Qed.

(** C9. [Read] leaves the receiver exactly as it found it: the provider's
    configuration and, inside it, the flag registry with every flag's
    name, value, type tag and changed marker; and as nothing is kept from
    one call to the next, a second call returns what the first
    returned. *)
Theorem Read_preserves_state (p : Posflag) :
  snd (Read p) = p /\
  flagset (snd (Read p)) = flagset p /\
  fst (Read (snd (Read p))) = fst (Read p).
Proof.
  assert (H : snd (Read p) = p) by (rewrite Read_run; reflexivity).
  rewrite H. repeat split; reflexivity.
Qed.

(** * Further properties *)

(** ** Constructors and options *)

Lemma ProviderWithOptions_snoc (f : FlagSet) (d : string)
    (options : list Option) (o : Option) :
  ProviderWithOptions f d (options ++ [o]) = o (ProviderWithOptions f d options).
Proof. unfold ProviderWithOptions. rewrite foldl_app. reflexivity. Qed.

(** X1. The older constructors are instances of [ProviderWithOptions]:
    [Provider] is the [ParentKoanf] option alone, [ProviderWithValue] is
    the [ParentKoanf] and [ValueCallback] options together, and no option
    at all is [Provider] without a parent koanf. *)
Theorem constructors_as_options (f : FlagSet) (d : string) (k : option Koanf)
    (cb : option (string -> string -> string * iface)) :
  Provider f d k = ProviderWithOptions f d [ParentKoanf k] /\
  ProviderWithValue f d k cb
  = ProviderWithOptions f d [ParentKoanf k; ValueCallback cb] /\
  ProviderWithValue f d k cb
  = ProviderWithOptions f d [ValueCallback cb; ParentKoanf k] /\
  ProviderWithOptions f d [] = Provider f d None.
Proof. repeat split; reflexivity. Qed.

(** X2. [ProviderWithOptions] keeps the flag set and the delimiter it is
    given, whatever options of the package follow in whatever number and
    order, and each of the three other fields holds the argument of the
    last option of its kind, or [nil] when no option of that kind is
    given. *)
Theorem ProviderWithOptions_fields (f : FlagSet) (d : string)
    (l : list setter) :
  ProviderWithOptions f d (option_of <$> l)
  = {| delim := d; flagset := f; ko := last_parent l;
       valueCallback := last_value l; keyNameCallback := last_rename l |}.
Proof.
  induction l as [|s l IH] using rev_ind; [reflexivity|].
  rewrite fmap_app. simpl. rewrite ProviderWithOptions_snoc, IH.
  unfold last_parent, last_value, last_rename. rewrite !foldl_app.
  destruct s; reflexivity.
Qed.

(** ** One flag at a time *)

Lemma visit_value_union (p : Posflag) (f : Flag) (k : string)
    (mp : gmap string iface) :
  fst (visit_value f k mp p) = fst (visit_value f k ∅ p) ∪ mp.
Proof.
  destruct (decide (Type_ (Value f) ∈ recognized)) as [Hty|Hty].
  - rewrite !visit_value_recognized by exact Hty.
    rewrite insert_empty. apply insert_union_singleton_l.
  - rewrite !visit_value_default by exact Hty. unfold default_case.
    destruct (valueCallback p) as [cb|].
    + case_decide; [by rewrite (left_id_L ∅ (∪))|].
      rewrite insert_empty. apply insert_union_singleton_l.
    + rewrite insert_empty. apply insert_union_singleton_l.
Qed.

Lemma visit_value_cases (p : Posflag) (f : Flag) (k : string) :
  fst (visit_value f k ∅ p) = ∅ \/
  exists k' v, fst (visit_value f k ∅ p) = {[ k' := v ]}.
Proof.
  destruct (decide (Type_ (Value f) ∈ recognized)) as [Hty|Hty].
  - right. rewrite visit_value_recognized by exact Hty.
    rewrite insert_empty. eauto.
  - rewrite visit_value_default by exact Hty. unfold default_case.
    destruct (valueCallback p) as [cb|].
    + case_decide; [by left|]. right. rewrite insert_empty. eauto.
    + right. rewrite insert_empty. eauto.
Qed.

Lemma contribution_cases (p : Posflag) (f : Flag) :
  contribution p f = ∅ \/ exists k v, contribution p f = {[ k := v ]}.
Proof.
  unfold contribution. rewrite (visit_run p f ∅).
  destruct (included p f); [apply visit_value_cases|by left].
Qed.

Lemma visit_contribution (p : Posflag) (f : Flag) (mp : gmap string iface) :
  fst (visit f mp p) = contribution p f ∪ mp.
Proof.
  unfold contribution. rewrite (visit_run p f mp), (visit_run p f ∅).
  destruct (included p f); simpl; [apply visit_value_union|].
  by rewrite (left_id_L ∅ (∪)).
Qed.

Lemma VisitAll_contributions (p : Posflag) (flags : list Flag)
    (mp : gmap string iface) :
  fst (VisitAll flags visit mp p)
  = foldl (fun m f => contribution p f ∪ m) mp flags.
Proof.
  rewrite VisitAll_visit_run. simpl. revert mp.
  induction flags as [|f flags IH]; intros mp; [reflexivity|].
  simpl. rewrite IH, visit_contribution. reflexivity.
Qed.

Lemma VisitAll_snoc (p : Posflag) (flags : list Flag) (f : Flag)
    (mp : gmap string iface) :
  fst (VisitAll (flags ++ [f]) visit mp p)
  = contribution p f ∪ fst (VisitAll flags visit mp p).
Proof. rewrite !VisitAll_contributions, foldl_app. reflexivity. Qed.

(** X3. What the closure of [Read] does to the map does not depend on the
    map: it adds the flag's own contribution, at most one entry, and that
    entry replaces an earlier one under the same key. *)
Theorem visit_writes_one_entry (p : Posflag) (f : Flag)
    (mp : gmap string iface) :
  fst (visit f mp p) = contribution p f ∪ mp /\
  (size (contribution p f) <= 1)%nat /\
  (forall k v, contribution p f !! k = Some v ->
     fst (visit f mp p) !! k = Some v) /\
  (forall k, contribution p f !! k = None ->
     fst (visit f mp p) !! k = mp !! k).
Proof.
  rewrite visit_contribution. split; [reflexivity|]. split; [|split].
  - destruct (contribution_cases p f) as [->|(k & v & ->)].
    + rewrite map_size_empty. lia.
    + rewrite map_size_singleton. lia.
  - intros k v Hk. apply lookup_union_Some_raw. by left.
  - intros k Hk. destruct (mp !! k) as [v|] eqn:Hmp.
    + apply lookup_union_Some_raw. by right.
    + apply lookup_union_None. by split.
Qed.

Lemma visit_writes_one_entry_witness :
  fst (visit (demo_flag "port" "int" "8080" true)
         {[ "port" := VString "old"; "host" := VString "h" ]}
         (Provider demo_flags "." None)) !! "port" = Some (VInt64 8080) /\
  fst (visit (demo_flag "port" "int" "8080" true)
         {[ "port" := VString "old"; "host" := VString "h" ]}
         (Provider demo_flags "." None)) !! "host" = Some (VString "h").
Proof.
  destruct (visit_writes_one_entry (Provider demo_flags "." None)
              (demo_flag "port" "int" "8080" true)
              {[ "port" := VString "old"; "host" := VString "h" ]})
    as (_ & _ & Hnew & Hold).
  split.
  - apply Hnew. vm_compute. reflexivity.
  - rewrite Hold; vm_compute; reflexivity.
Defined.

(** X4. [Read] writes at most one entry per flag: the flat map has no
    more entries than the registry has flags. *)
Theorem Read_flat_size (p : Posflag) :
  (size (fst (Read_flat p)) <= length (formal (flagset p)))%nat.
Proof.
  rewrite Read_flat_run. simpl.
  induction (formal (flagset p)) as [|f flags IH] using rev_ind.
  - simpl. rewrite map_size_empty. lia.
  - rewrite VisitAll_snoc, length_app. simpl.
    destruct (contribution_cases p f) as [->|(k & v & ->)].
    + rewrite (left_id_L ∅ (∪)). lia.
    + rewrite <- insert_union_singleton_l.
      pose proof (map_size_insert k v (fst (VisitAll flags visit ∅ p))) as Hs.
      destruct (fst (VisitAll flags visit ∅ p) !! k); unfold id in Hs; lia.
Qed.

(** ** The whole registry *)

Lemma contributions_lookup (p : Posflag) (flags : list Flag) (k : string)
    (v : iface) :
  foldl (fun m f => contribution p f ∪ m) ∅ flags !! k = Some v <->
  exists l1 f l2,
    flags = l1 ++ f :: l2 /\
    contribution p f !! k = Some v /\
    Forall (fun g => contribution p g !! k = None) l2.
Proof.
  induction flags as [|x flags IH] using rev_ind.
  - simpl. rewrite lookup_empty. split; [discriminate|].
    intros (l1 & f & l2 & Heq & _). by destruct l1.
  - rewrite foldl_app. simpl. rewrite lookup_union_Some_raw, IH. split.
    + intros [Hx|(Hx & l1 & f & l2 & -> & Hf & Hl2)].
      * exists flags, x, []. repeat split; [exact Hx|constructor].
      * exists l1, f, (l2 ++ [x]). rewrite <- app_assoc. repeat split.
        -- exact Hf.
        -- apply Forall_app. split; [exact Hl2|]. by constructor.
    + intros (l1 & f & l2 & Heq & Hf & Hl2).
      destruct l2 as [|y l2 _] using rev_ind.
      * apply app_inj_tail in Heq as [-> ->]. by left.
      * rewrite app_comm_cons, app_assoc in Heq.
        apply app_inj_tail in Heq as [-> ->].
        apply Forall_app in Hl2 as [Hl2 Hy]. apply Forall_inv in Hy.
        right. split; [exact Hy|]. exists l1, f, l2. repeat split; assumption.
Qed.

(** X5. Last write wins: the flat map of [Read] holds [v] under [k]
    exactly when some flag of the registry contributes [v] under [k] and
    no flag visited after it contributes anything under [k]. *)
Theorem Read_flat_last_write_wins (p : Posflag) (k : string) (v : iface) :
  fst (Read_flat p) !! k = Some v <->
  exists l1 f l2,
    formal (flagset p) = l1 ++ f :: l2 /\
    contribution p f !! k = Some v /\
    Forall (fun g => contribution p g !! k = None) l2.
Proof.
  rewrite Read_flat_run. simpl. rewrite VisitAll_contributions.
  apply contributions_lookup.
Qed.

Lemma written_keys_cons (p : Posflag) (f : Flag) (flags : list Flag) :
  written_keys p (f :: flags)
  = (map_to_list (contribution p f)).*1 ++ written_keys p flags.
Proof. reflexivity. Qed.

Lemma elem_of_written_keys (p : Posflag) (flags : list Flag) (k : string) :
  k ∈ written_keys p flags <->
  exists f, f ∈ flags /\ is_Some (contribution p f !! k).
Proof.
  unfold written_keys. rewrite list_elem_of_bind. split.
  - intros (f & Hk & Hf). exists f. split; [exact Hf|].
    apply list_elem_of_fmap in Hk as ([k' v] & -> & Hkv).
    apply elem_of_map_to_list in Hkv. eauto.
  - intros (f & Hf & [v Hv]). exists f. split; [|exact Hf].
    apply list_elem_of_fmap. exists (k, v). split; [reflexivity|].
    by apply elem_of_map_to_list.
Qed.

Lemma contributions_disjoint (p : Posflag) (f g : Flag) (flags : list Flag) :
  NoDup (written_keys p (f :: g :: flags)) ->
  contribution p f ##ₘ contribution p g.
Proof.
  intros Hdup. apply map_disjoint_spec. intros k v w Hf Hg.
  rewrite !written_keys_cons in Hdup.
  apply NoDup_app in Hdup as (_ & Hfresh & _).
  apply (Hfresh k).
  - apply list_elem_of_fmap. exists (k, v). split; [reflexivity|].
    by apply elem_of_map_to_list.
  - apply elem_of_app. left.
    apply list_elem_of_fmap. exists (k, w). split; [reflexivity|].
    by apply elem_of_map_to_list.
Qed.

(** X6. When no two flags write the same key, the flat map of [Read] does
    not depend on the order in which [VisitAll] visits the flags. *)
Theorem VisitAll_order_independent (p : Posflag) (flags flags' : list Flag)
    (mp : gmap string iface) :
  NoDup (written_keys p flags) ->
  flags ≡ₚ flags' ->
  fst (VisitAll flags visit mp p) = fst (VisitAll flags' visit mp p).
Proof.
  intros Hdup Hperm. rewrite !VisitAll_contributions. revert mp Hdup.
  induction Hperm as [|f l l' Hperm IH|f g l|l l' l'' H1 IH1 H2 IH2];
    intros mp Hdup.
  - reflexivity.
  - simpl. apply IH. rewrite written_keys_cons in Hdup.
    by apply NoDup_app in Hdup as (_ & _ & Hdup).
  - simpl. f_equal. rewrite !(assoc_L (∪)). f_equal.
    apply map_union_comm. symmetry. eapply contributions_disjoint, Hdup.
  - rewrite IH1 by exact Hdup. apply IH2.
    unfold written_keys in *. by rewrite <- H1.
Qed.

Lemma VisitAll_order_independent_witness :
  fst (VisitAll (reverse (formal demo_flags)) visit ∅
         (Provider demo_flags "." None))
  = fst (Read_flat (Provider demo_flags "." None)).
Proof.
  rewrite Read_flat_run. symmetry.
  apply (VisitAll_order_independent (Provider demo_flags "." None)).
  - compute_done.
  - symmetry. apply reverse_Permutation.
Defined.

(** ** Without a value callback *)

Lemma contribution_no_callback (p : Posflag) (f : Flag) :
  valueCallback p = None ->
  contribution p f
  = if included p f then {[ key_name p f := stored_value p f ]} else ∅.
Proof.
  intros Hcb. unfold contribution, stored_value. rewrite (visit_run p f ∅).
  destruct (included p f); [|reflexivity].
  destruct (decide (Type_ (Value f) ∈ recognized)) as [Hty|Hty].
  - rewrite visit_value_recognized by exact Hty. apply insert_empty.
  - rewrite visit_value_default by exact Hty. unfold default_case.
    rewrite Hcb. apply insert_empty.
Qed.

(** X7. Without a value callback, the keys of the flat map of [Read] are
    exactly the output keys of the included flags of the registry. *)
Theorem Read_flat_keys (p : Posflag) (k : string) :
  valueCallback p = None ->
  k ∈ dom (fst (Read_flat p)) <->
  exists f, f ∈ formal (flagset p) /\ included p f = true /\ key_name p f = k.
Proof.
  intros Hcb. rewrite Read_flat_run. simpl.
  induction (formal (flagset p)) as [|x flags IH] using rev_ind.
  - simpl. rewrite dom_empty_L. split; [by intros ?%not_elem_of_empty|].
    intros (f & Hf & _). by apply elem_of_nil in Hf.
  - rewrite VisitAll_snoc, dom_union_L, elem_of_union, IH.
    rewrite (contribution_no_callback p x Hcb). split.
    + intros [Hx|(f & Hf & Hin & Hk)].
      * destruct (included p x) eqn:Hin;
          [|by rewrite dom_empty_L in Hx; apply not_elem_of_empty in Hx].
        rewrite dom_singleton_L in Hx. apply elem_of_singleton in Hx.
        exists x. split; [apply elem_of_app; right; by left|by split].
      * exists f. split; [apply elem_of_app; by left|by split].
    + intros (f & Hf & Hin & Hk). apply elem_of_app in Hf as [Hf|Hf].
      * right. exists f. by repeat split.
      * apply list_elem_of_singleton in Hf. subst f. left.
        rewrite Hin, dom_singleton_L. by apply elem_of_singleton.
Qed.

Lemma Read_flat_keys_witness :
  "tags" ∈ dom (fst (Read_flat (Provider demo_flags "." (Some demo_parent)))).
Proof.
  apply (Read_flat_keys (Provider demo_flags "." (Some demo_parent)) "tags"
           eq_refl).
  exists (demo_flag "tags" "stringSlice" "[a,b]" false).
  split; [|split; reflexivity].
  unfold Provider, demo_flags. simpl. repeat constructor.
Defined.

(** X8. Without a value callback and when the output keys of the flags of
    the registry are all different (as the flag names are, without a
    rename callback), every included flag of the registry is in the flat
    map of [Read], under its output key, with the value of its type:
    the typed value of a recognized type, the string rendering of any
    other. *)
Theorem Read_flat_included_flag (p : Posflag) (f : Flag) :
  valueCallback p = None ->
  NoDup (key_name p <$> formal (flagset p)) ->
  f ∈ formal (flagset p) ->
  included p f = true ->
  fst (Read_flat p) !! key_name p f = Some (stored_value p f).
Proof.
  intros Hcb Hdup Hf Hin. rewrite Read_flat_run. simpl.
  rewrite VisitAll_contributions. apply contributions_lookup.
  apply list_elem_of_split in Hf as (l1 & l2 & Heq).
  exists l1, f, l2. split; [exact Heq|]. split.
  - rewrite (contribution_no_callback p f Hcb), Hin. apply lookup_singleton_eq.
  - rewrite Heq, fmap_app, fmap_cons in Hdup.
    apply NoDup_app in Hdup as (_ & _ & Hdup).
    apply NoDup_cons in Hdup as [Hfresh _].
    apply Forall_forall. intros g Hg.
    rewrite (contribution_no_callback p g Hcb).
    destruct (included p g); [|apply lookup_empty].
    apply lookup_singleton_ne. intros Heqk. apply Hfresh.
    rewrite <- Heqk. by apply list_elem_of_fmap_2.
Qed.

Lemma Read_flat_included_flag_witness :
  fst (Read_flat (Provider demo_flags "." None)) !! "level"
  = Some (VInt64 127).
Proof.
  apply (Read_flat_included_flag (Provider demo_flags "." None)
           (demo_flag "level" "int8" "127" true) eq_refl).
  - compute_done.
  - unfold Provider, demo_flags. simpl. repeat constructor.
  - reflexivity.
Defined.

Lemma Read_flat_none_included (p : Posflag) :
  Forall (fun f => included p f = false) (formal (flagset p)) ->
  fst (Read_flat p) = ∅.
Proof.
  intros Hnone. rewrite Read_flat_run. simpl.
  induction (formal (flagset p)) as [|x flags IH] using rev_ind;
    [reflexivity|].
  apply Forall_app in Hnone as [Hflags Hx]. apply Forall_inv in Hx.
  rewrite VisitAll_snoc, (IH Hflags). unfold contribution.
  rewrite (visit_run p x ∅), Hx. simpl. by rewrite (left_id_L ∅ (∪)).
Qed.

(** X9. A registry in which no flag was changed gives the empty flat map
    when no parent koanf is configured, and also when the parent koanf
    has the output key of every flag. *)
Theorem Read_flat_nothing_changed (p : Posflag) :
  Forall (fun f => Changed f = false) (formal (flagset p)) ->
  (ko p = None -> fst (Read_flat p) = ∅) /\
  (forall k, ko p = Some k ->
     Forall (fun f => Exists k (key_name p f) = true) (formal (flagset p)) ->
     fst (Read_flat p) = ∅).
Proof.
  intros Hunchanged. split.
  - intros Hko. apply Read_flat_none_included.
    eapply Forall_impl; [exact Hunchanged|]. intros f Hf.
    unfold included. by rewrite Hf, Hko.
  - intros k Hko Hexists. apply Read_flat_none_included.
    rewrite Forall_forall in Hunchanged, Hexists. apply Forall_forall.
    intros f Hf. unfold included.
    by rewrite (Hunchanged f Hf), Hko, (Hexists f Hf).
Qed.

Lemma Read_flat_nothing_changed_witness :
  fst (Read_flat (Provider unset_flags "." None)) = ∅.
Proof.
  apply (Read_flat_nothing_changed (Provider unset_flags "." None)).
  - unfold Provider, unset_flags. simpl. repeat constructor.
  - reflexivity.
Defined.

(** ** What the options do and do not touch *)

Lemma visit_value_ko (k : option Koanf) (p : Posflag) (f : Flag)
    (keyName : string) (mp : gmap string iface) :
  fst (visit_value f keyName mp (ParentKoanf k p))
  = fst (visit_value f keyName mp p).
Proof.
  destruct (decide (Type_ (Value f) ∈ recognized)) as [Hty|Hty].
  - rewrite !visit_value_recognized by exact Hty. reflexivity.
  - rewrite !visit_value_default by exact Hty. reflexivity.
Qed.

Lemma contribution_changed_ko (k : option Koanf) (p : Posflag) (f : Flag) :
  Changed f = true ->
  contribution (ParentKoanf k p) f = contribution (ParentKoanf None p) f.
Proof.
  intros Hch. unfold contribution.
  rewrite (visit_run (ParentKoanf k p)), (visit_run (ParentKoanf None p)).
  unfold included. rewrite Hch. simpl. rewrite !visit_value_ko. reflexivity.
Qed.

Lemma contribution_unchanged_no_ko (p : Posflag) (f : Flag) :
  Changed f = false -> contribution (ParentKoanf None p) f = ∅.
Proof.
  intros Hch. unfold contribution. rewrite (visit_run (ParentKoanf None p)).
  unfold included. rewrite Hch. reflexivity.
Qed.

(** X10. A parent koanf only ever adds: every key of the flat map that
    [Read] builds without a parent koanf is a key of the flat map that it
    builds with one. *)
Theorem ParentKoanf_adds_keys (p : Posflag) (k : Koanf) :
  dom (fst (Read_flat (ParentKoanf None p)))
  ⊆ dom (fst (Read_flat (ParentKoanf (Some k) p))).
Proof.
  rewrite !Read_flat_run. simpl.
  induction (formal (flagset p)) as [|x flags IH] using rev_ind;
    [reflexivity|].
  rewrite !VisitAll_snoc, !dom_union_L.
  destruct (Changed x) eqn:Hch.
  - rewrite (contribution_changed_ko (Some k) p x Hch).
    apply union_mono_l, IH.
  - rewrite (contribution_unchanged_no_ko p x Hch), dom_empty_L.
    rewrite (left_id_L ∅ (∪)). etrans; [exact IH|]. apply union_subseteq_r.
Qed.

(** X11. A parent koanf that has the output key of every flag of the
    registry changes nothing: [Read] builds the flat map that it builds
    without a parent koanf, with the changed flags only. *)
Theorem ParentKoanf_with_every_key (p : Posflag) (k : Koanf) :
  Forall (fun f => Exists k (key_name p f) = true) (formal (flagset p)) ->
  fst (Read_flat (ParentKoanf (Some k) p))
  = fst (Read_flat (ParentKoanf None p)).
Proof.
  intros Hall. rewrite !Read_flat_run. simpl.
  induction (formal (flagset p)) as [|x flags IH] using rev_ind;
    [reflexivity|].
  apply Forall_app in Hall as [Hflags Hx]. apply Forall_inv in Hx.
  rewrite !VisitAll_snoc, (IH Hflags). f_equal.
  destruct (Changed x) eqn:Hch; [by apply contribution_changed_ko|].
  rewrite (contribution_unchanged_no_ko p x Hch). unfold contribution.
  rewrite (visit_run (ParentKoanf (Some k) p)). unfold included.
  rewrite Hch. simpl. change (key_name (ParentKoanf (Some k) p) x)
    with (key_name p x). by rewrite Hx.
Qed.

Lemma ParentKoanf_with_every_key_witness :
  fst (Read_flat (ParentKoanf (Some {| Exists := fun _ => true |})
                    (Provider demo_flags "." None)))
  = fst (Read_flat (ParentKoanf None (Provider demo_flags "." None))).
Proof.
  apply (ParentKoanf_with_every_key (Provider demo_flags "." None)
           {| Exists := fun _ => true |}).
  unfold Provider, demo_flags. simpl. repeat constructor.
Defined.

(** X12. The value callback is never given a flag of a recognized type:
    for such a flag the closure of [Read] does the same with and without
    a value callback. *)
Theorem ValueCallback_not_for_recognized (p : Posflag)
    (cb : option (string -> string -> string * iface)) (f : Flag)
    (mp : gmap string iface) :
  Type_ (Value f) ∈ recognized ->
  fst (visit f mp (ValueCallback cb p)) = fst (visit f mp p).
Proof.
  intros Hty. rewrite (visit_run (ValueCallback cb p)), (visit_run p).
  change (included (ValueCallback cb p) f) with (included p f).
  change (key_name (ValueCallback cb p) f) with (key_name p f).
  destruct (included p f); [|reflexivity].
  rewrite !visit_value_recognized by exact Hty. reflexivity.
Qed.

Lemma ValueCallback_not_for_recognized_witness :
  fst (visit (demo_flag "port" "int" "8080" true) ∅
         (ValueCallback (Some demo_drop) (Provider demo_flags "." None)))
  = {[ "port" := VInt64 8080 ]}.
Proof.
  rewrite (ValueCallback_not_for_recognized (Provider demo_flags "." None)
             (Some demo_drop) (demo_flag "port" "int" "8080" true) ∅).
  - vm_compute. reflexivity.
  - unfold recognized. simpl. repeat constructor.
Defined.

(** X13. The rename callback changes the key of a changed flag and
    nothing else: the typed getter is still asked by the flag's own name,
    so the value stored under the new key is the value stored under the
    flag's name without the callback (for a recognized type, and for any
    type when no value callback is configured). *)
Theorem RenameCallback_changes_key_only (p : Posflag) (f : Flag)
    (mp : gmap string iface) :
  Changed f = true ->
  Type_ (Value f) ∈ recognized \/ valueCallback p = None ->
  exists v,
    fst (visit f mp (RenameCallback None p)) = <[Name f := v]> mp /\
    (forall rename,
       fst (visit f mp (RenameCallback (Some rename) p))
       = <[rename f := v]> mp).
Proof.
  intros Hch Hcase. exists (stored_value p f). unfold stored_value.
  assert (Hany : forall r,
            fst (visit f mp (RenameCallback r p))
            = fst (visit_value f (key_name (RenameCallback r p) f) mp
                     (RenameCallback r p))).
  { intros r. rewrite (visit_run (RenameCallback r p)). unfold included.
    by rewrite Hch. }
  split; [|intros rename]; rewrite Hany; unfold key_name; simpl;
    (destruct (decide (Type_ (Value f) ∈ recognized)) as [Hty|Hty];
     [ rewrite visit_value_recognized by exact Hty; reflexivity
     | destruct Hcase as [?|Hnone]; [contradiction|];
       rewrite visit_value_default by exact Hty; unfold default_case; simpl;
       rewrite Hnone; reflexivity ]).
Qed.

Lemma RenameCallback_changes_key_only_witness :
  fst (visit (demo_flag "port" "int" "8080" true) ∅
         (RenameCallback (Some demo_rename) (Provider demo_flags "." None)))
  = {[ "server.port" := VInt64 8080 ]}.
Proof.
  destruct (RenameCallback_changes_key_only (Provider demo_flags "." None)
              (demo_flag "port" "int" "8080" true) ∅ eq_refl)
    as (v & Hplain & Hrenamed).
  - left. unfold recognized. simpl. repeat constructor.
  - rewrite (Hrenamed demo_rename).
    assert (Hv : v = VInt64 8080).
    { apply (f_equal (fun m => m !! "port")) in Hplain.
      vm_compute in Hplain. congruence. }
    rewrite Hv. reflexivity.
Defined.

(** ** The other typed cases *)

(** X14. An included flag of type "bool" is stored as the boolean that
    [GetBool] finds, one of type "stringSlice" as the strings that
    [GetStringSlice] finds, in their order, and one of type "intSlice" as
    the integers that [GetIntSlice] finds, in their order and not
    widened one by one. *)
Theorem Read_bool_and_slices (p : Posflag) (f : Flag)
    (mp : gmap string iface) :
  included p f = true ->
  (forall b, Type_ (Value f) = "bool" ->
     lookupBool (flagset p) (Name f) = Ok b ->
     fst (visit f mp p) = <[key_name p f := VBool b]> mp) /\
  (forall l, Type_ (Value f) = "stringSlice" ->
     lookupStringSlice (flagset p) (Name f) = Ok l ->
     fst (visit f mp p) = <[key_name p f := VStringSlice l]> mp) /\
  (forall l, Type_ (Value f) = "intSlice" ->
     lookupIntSlice (flagset p) (Name f) = Ok l ->
     fst (visit f mp p) = <[key_name p f := VIntSlice l]> mp).
Proof.
  intros Hin. rewrite (visit_run p f mp), Hin. split; [|split].
  - intros b Hty Hb. rewrite (visit_value_bool _ _ _ _ Hty).
    unfold GetBool. rewrite Hb. reflexivity.
  - intros l Hty Hl. rewrite (visit_value_stringSlice _ _ _ _ Hty).
    unfold GetStringSlice. rewrite Hl. reflexivity.
  - intros l Hty Hl. rewrite (visit_value_intSlice _ _ _ _ Hty).
    unfold GetIntSlice. rewrite Hl. reflexivity.
Qed.

Lemma Read_bool_and_slices_witness :
  fst (visit (demo_flag "tags" "stringSlice" "[a,b]" true) ∅
         (Provider demo_flags "." None))
  = {[ "tags" := VStringSlice ["a"; "b"] ]}.
Proof.
  destruct (Read_bool_and_slices (Provider demo_flags "." None)
              (demo_flag "tags" "stringSlice" "[a,b]" true) ∅ eq_refl)
    as (_ & Hstrings & _).
  apply (Hstrings ["a"; "b"]); reflexivity.
Defined.

(** ** Failure of [Read] *)

Lemma explode_nil (s : string) : explode s = [] -> s = EmptyString.
Proof. intros H. rewrite <- (Join_explode s), H. reflexivity. Qed.

(** Only the empty key under the empty delimiter splits into no piece. *)
Lemma Split_nil (k d : string) :
  Split k d = [] <-> k = EmptyString /\ d = EmptyString.
Proof.
  split.
  - unfold Split. destruct d as [|a d].
    + intros H. split; [by apply explode_nil|reflexivity].
    + intros H. by apply genSplit_nonempty in H.
  - intros [-> ->]. reflexivity.
Qed.

Lemma Unflatten_go_returns (m : gmap string iface) (d : string) :
  (d = EmptyString -> m !! EmptyString = None) ->
  Unflatten_go m d = Returns (Unflatten m d).
Proof.
  intros Hkey. unfold Unflatten_go. rewrite bool_decide_eq_true_2; [done|].
  intros k v Hk Hsplit. apply Split_nil in Hsplit as [-> ->].
  rewrite Hkey in Hk by reflexivity. discriminate.
Qed.

Lemma Unflatten_go_panics (m : gmap string iface) (v : iface) :
  m !! EmptyString = Some v ->
  Unflatten_go m EmptyString
  = Panics "runtime error: slice bounds out of range [:-1]".
Proof.
  intros Hk. unfold Unflatten_go. rewrite bool_decide_eq_false_2; [done|].
  intros Hall. by apply (Hall EmptyString v Hk).
Qed.



Lemma Read_go_run (p : Posflag) :
  Read_go p
  = (match Unflatten_go (fst (Read_flat p)) (delim p) with
     | Returns tree => Returns (tree, None)
     | Panics msg => Panics msg
     end, p).
Proof.
  unfold Read_go, mbind, State_bind, gets.
  pose proof (Read_flat_run p) as E. destruct (Read_flat p) as [a s'].
  injection E as _ ->. simpl.
  destruct (Unflatten_go a (delim p)); reflexivity.
Qed.

(** [Read] panics exactly when the delimiter is empty and the flat map
    has an entry under the empty key. *)
Lemma Read_go_panics_iff (p : Posflag) :
  (exists msg, fst (Read_go p) = Panics msg) <->
  delim p = EmptyString /\ is_Some (fst (Read_flat p) !! EmptyString).
Proof.
  rewrite Read_go_run. simpl. split.
  - intros [msg Hmsg].
    destruct (decide (delim p = EmptyString)) as [Hd|Hd].
    + split; [exact Hd|].
      destruct (fst (Read_flat p) !! EmptyString) as [v|] eqn:Hk; [eauto|].
      rewrite Unflatten_go_returns in Hmsg by (intros _; exact Hk).
      discriminate.
    + rewrite Unflatten_go_returns in Hmsg by (intros ?; contradiction).
      discriminate.
  - intros [Hd [v Hv]]. rewrite Hd, (Unflatten_go_panics _ v Hv). eauto.
Qed.



